(** * summarize_invoices.py: amount extraction, discount reconciliation,
      duplicate detection and the interactive resolver

    A shallow embedding of [src/summarize_invoices.py].

    Conventions of the model.
    - A Python [str] is read as the list of the bytes of its UTF-8 encoding
      ([text]); the euro sign is the three bytes E2 82 AC.  The classes [\d]
      and [\s], the methods [strip] and [upper] and the [re.IGNORECASE] flag
      are taken on the ASCII range.
    - A Python [float] is read as the exact rational it denotes ([Q]); the
      numerals met here are decimals, and [round(x, 2)] is rounding half to
      even to hundredths.  Python's [==] on floats is [Qeq].
    - The compiled regular expression is embedded as a backtracking matcher:
      every sub-pattern maps the remaining input to the list of its possible
      matches in the order in which the engine tries them; the match found
      at a position is the first of that list. *)

From Stdlib Require Import Ascii String.
From Stdlib Require Import List Bool Arith ZArith Lia.
From Stdlib Require Import QArith Qround.
From Stdlib Require Import Sorted Permutation.
From Stdlib Require Import DecimalString.
Import ListNotations.

Set Implicit Arguments.

Close Scope Q_scope.
Open Scope list_scope.

(** ** Text *)

Definition text := list ascii.

Definition T (s : string) : text := list_ascii_of_string s.

Definition code (c : ascii) : N := N_of_ascii c.

Definition is_digit (c : ascii) : bool :=
  ((48 <=? code c) && (code c <=? 57))%N.

(** [str.isspace] below 128: TAB, LF, VT, FF, CR, the four separators
    1C..1F, and the space. *)
Definition is_space (c : ascii) : bool :=
  (((9 <=? code c) && (code c <=? 13))
   || ((28 <=? code c) && (code c <=? 31))
   || (code c =? 32))%N.

Definition is_sep (c : ascii) : bool :=
  (Ascii.eqb c "." || Ascii.eqb c ",")%bool.

Definition upper_char (c : ascii) : ascii :=
  if ((97 <=? code c) && (code c <=? 122))%N
  then ascii_of_N (code c - 32) else c.

Definition upper (s : text) : text := map upper_char s.

Fixpoint lstrip (s : text) : text :=
  match s with
  | c :: t => if is_space c then lstrip t else s
  | [] => []
  end.

Definition rstrip (s : text) : text := rev (lstrip (rev s)).

Definition strip (s : text) : text := rstrip (lstrip s).

Fixpoint text_eqb (a b : text) : bool :=
  match a, b with
  | [], [] => true
  | x :: a', y :: b' => Ascii.eqb x y && text_eqb a' b'
  | _, _ => false
  end.

(** [s.replace(old, new)] for a one-character [old]. *)
Definition replace_char (old : ascii) (new : text) (s : text) : text :=
  flat_map (fun c => if Ascii.eqb c old then new else [c]) s.

(** [s.split(',')]: always at least one piece. *)
Fixpoint split_on (d : ascii) (s : text) : list text :=
  match s with
  | [] => [[]]
  | c :: t =>
      if Ascii.eqb c d then [] :: split_on d t
      else match split_on d t with
           | p :: ps => (c :: p) :: ps
           | [] => [[c]]
           end
  end.

Definition join (d : text) (l : list text) : text :=
  match l with
  | [] => []
  | x :: xs => x ++ flat_map (fun y => d ++ y) xs
  end.

(** ** The backtracking matcher *)

Module Re.

Definition parser (A : Type) := text -> list (A * text).

Definition ret {A} (a : A) : parser A := fun s => [(a, s)].

Definition bind {A B} (p : parser A) (f : A -> parser B) : parser B :=
  fun s => flat_map (fun ar => f (fst ar) (snd ar)) (p s).

Definition alt {A} (p q : parser A) : parser A :=
  fun s => p s ++ q s.

(** One character of a class. *)
Definition sat (f : ascii -> bool) : parser ascii :=
  fun s => match s with
           | c :: t => if f c then [(c, t)] else []
           | [] => []
           end.

(** A literal; [ci] is the IGNORECASE flag. *)
Fixpoint lit (ci : bool) (l : text) : parser text :=
  match l with
  | [] => ret []
  | c :: l' =>
      bind (sat (fun x => if ci then Ascii.eqb (upper_char x) (upper_char c)
                          else Ascii.eqb x c))
           (fun x => bind (lit ci l') (fun r => ret (x :: r)))
  end.

(** [p?], greedy: with [p] first, then without. *)
Definition opt {A} (p : parser A) : parser (option A) :=
  fun s => map (fun ar => (Some (fst ar), snd ar)) (p s) ++ [(None, s)].

(** [p{n}] *)
Fixpoint rep {A} (n : nat) (p : parser A) : parser (list A) :=
  match n with
  | O => ret []
  | S k => bind p (fun x => bind (rep k p) (fun xs => ret (x :: xs)))
  end.

(** [p{lo,lo+extra}], greedy: the longest repetition first. *)
Fixpoint rep_upto {A} (extra : nat) (p : parser A) : parser (list A) :=
  match extra with
  | O => ret []
  | S k => alt (bind p (fun x => bind (rep_upto k p)
                                   (fun xs => ret (x :: xs))))
               (ret [])
  end.

Definition rep_range {A} (lo extra : nat) (p : parser A) : parser (list A) :=
  bind (rep lo p) (fun xs => bind (rep_upto extra p)
                               (fun ys => ret (xs ++ ys))).

(** [p*], greedy.  An iteration that consumes nothing ends the loop, as in
    the engine; [fuel] bounds the number of iterations and the length of
    the input is enough. *)
Fixpoint star_fuel {A} (fuel : nat) (p : parser A) : parser (list A) :=
  fun s =>
    match fuel with
    | O => [([], s)]
    | S k =>
        flat_map
          (fun ar =>
             if length (snd ar) <? length s
             then map (fun r => (fst ar :: fst r, snd r))
                      (star_fuel k p (snd ar))
             else [])
          (p s)
        ++ [([], s)]
    end.

Definition star {A} (p : parser A) : parser (list A) :=
  fun s => star_fuel (length s) p s.

End Re.

Import Re.

(** ** The pattern of [analyze_invoice_text] *)

Definition euro : text := T "€".

(** [(?:€|EUR)] under IGNORECASE *)
Definition currency : parser text :=
  alt (lit true euro) (lit true (T "EUR")).

(** [[.,]\d{n}]: a separator and [n] digits. *)
Definition group_of (n : nat) : parser text :=
  bind (sat is_sep) (fun c => bind (rep n (sat is_digit))
                                (fun ds => ret (c :: ds))).

(** [\d{1,3}(?:[.,]\d{3})*(?:[.,]\d{2})]; the value is the matched text. *)
Definition number : parser text :=
  bind (rep_range 1 2 (sat is_digit)) (fun ds =>
  bind (star (group_of 3)) (fun gs =>
  bind (group_of 2) (fun g =>
  ret (ds ++ concat gs ++ g)))).

(** The optional first group, a minus sign and any white space after it;
    the value is the text of group 1, when it takes part. *)
Definition sign_marker : parser (option text) :=
  opt (bind (sat (Ascii.eqb "-")) (fun c =>
       bind (star (sat is_space)) (fun ws => ret (c :: ws)))).

(** [match.groups()]: (sign, num_before, num_after). *)
Definition groups : Type := option text * option text * option text.

Definition pattern : parser groups :=
  bind sign_marker (fun sg =>
  alt (bind currency (fun _ =>
       bind (star (sat is_space)) (fun _ =>
       bind number (fun n => ret (sg, Some n, None)))))
      (bind number (fun n =>
       bind (star (sat is_space)) (fun _ =>
       bind currency (fun _ => ret (sg, None, Some n)))))).

(** [pattern.finditer(content)]: the leftmost match, then the search goes on
    where it ended.  [skip] counts the characters of the last match that are
    still to be passed. *)
Fixpoint finditer_from (skip : nat) (s : text) : list groups :=
  match s with
  | [] => []
  | _ :: t =>
      match skip with
      | S k => finditer_from k t
      | O =>
          match pattern s with
          | (g, rest) :: _ =>
              g :: finditer_from (length s - length rest - 1) t
          | [] => finditer_from 0 t
          end
      end
  end.

Definition finditer (content : text) : list groups := finditer_from 0 content.

(** ** Numbers *)

Definition digit_val (c : ascii) : Z := Z.of_N (code c) - 48.

Definition digits_val (ds : text) : Z :=
  fold_left (fun acc d => 10 * acc + digit_val d)%Z ds 0%Z.

(** [digit (["_"] digit)*], the digit part of Python's numeric literals:
    the digits read after a first digit, and what is left. *)
Fixpoint digits_tail (s : text) : text * text :=
  match s with
  | c :: t =>
      if is_digit c then
        let (ds, r) := digits_tail t in (c :: ds, r)
      else if Ascii.eqb c "_" then
        match t with
        | d :: t' =>
            if is_digit d then
              let (ds, r) := digits_tail t' in (d :: ds, r)
            else ([], s)
        | [] => ([], s)
        end
      else ([], s)
  | [] => ([], [])
  end.

Definition digitpart (s : text) : option (text * text) :=
  match s with
  | c :: t =>
      if is_digit c then
        let (ds, r) := digits_tail t in Some (c :: ds, r)
      else None
  | [] => None
  end.

(** [[digitpart] "." digitpart | digitpart ["."]]: integer digits, fraction
    digits, and what is left. *)
Definition number_part (s : text) : option (text * text * text) :=
  match digitpart s with
  | Some (ip, r) =>
      match r with
      | "."%char :: r' =>
          match digitpart r' with
          | Some (fp, r'') => Some (ip, fp, r'')
          | None => Some (ip, [], r')
          end
      | _ => Some (ip, [], r)
      end
  | None =>
      match s with
      | "."%char :: r' =>
          match digitpart r' with
          | Some (fp, r'') => Some ([], fp, r'')
          | None => None
          end
      | _ => None
      end
  end.

(** [("e" | "E") [sign] digitpart], optional; the whole literal must be
    consumed. *)
Definition exponent_part (s : text) : option Z :=
  match s with
  | [] => Some 0%Z
  | c :: t =>
      if Ascii.eqb (upper_char c) "E" then
        let (neg, t') :=
          match t with
          | "-"%char :: u => (true, u)
          | "+"%char :: u => (false, u)
          | _ => (false, t)
          end in
        match digitpart t' with
        | Some (ds, []) =>
            Some (if neg then - digits_val ds else digits_val ds)%Z
        | _ => None
        end
      else None
  end.

(** mantissa * 10^e *)
Definition scale10 (m e : Z) : Q :=
  if (0 <=? e)%Z then Qmake (m * 10 ^ e) 1
  else Qmake m (Z.to_pos (10 ^ (- e))).

Definition unsigned_float (s : text) : option Q :=
  match number_part s with
  | Some (ip, fp, r) =>
      match exponent_part r with
      | Some e =>
          Some (scale10 (digits_val (ip ++ fp)) (e - Z.of_nat (length fp)))
      | None => None
      end
  | None => None
  end.

(** [float(s)] on the literals of finite numbers; [None] is [ValueError].
    The literals [inf], [infinity] and [nan] denote no number and are not
    covered. *)
Definition float_of_string (s : text) : option Q :=
  match strip s with
  | "-"%char :: r => option_map Qopp (unsigned_float r)
  | "+"%char :: r => unsigned_float r
  | r => unsigned_float r
  end.

(** [int(s)]; [None] is [ValueError]. *)
Definition int_of_string (s : text) : option Z :=
  let body (neg : bool) (r : text) :=
    match digitpart r with
    | Some (ds, []) => Some (if neg then - digits_val ds else digits_val ds)%Z
    | _ => None
    end in
  match strip s with
  | "-"%char :: r => body true r
  | "+"%char :: r => body false r
  | r => body false r
  end.

(** Rounding half to even. *)
Definition round_half_even (x : Q) : Z :=
  let f := Qfloor x in
  match (x - inject_Z f ?= 1 # 2)%Q with
  | Lt => f
  | Gt => (f + 1)%Z
  | Eq => if Z.even f then f else (f + 1)%Z
  end.

(** [round(x, 2)] *)
Definition round2 (x : Q) : Q := Qmake (round_half_even (x * 100)%Q) 100.

Definition text_of_N (n : N) : text :=
  list_ascii_of_string (NilZero.string_of_uint (N.to_uint n)).

(** [f"{x:.2f}"] *)
Definition format2f (x : Q) : text :=
  let n := Z.to_N (Z.abs (round_half_even (x * 100)%Q)) in
  let c := (n mod 100)%N in
  (if Qle_bool 0%Q x then [] else ["-"%char])
    ++ text_of_N (n / 100)
    ++ ["."%char; ascii_of_N (48 + c / 10); ascii_of_N (48 + c mod 10)].

(** [list.sort(reverse=True)]: descending and stable, equal elements keep
    their order. *)
Fixpoint insert_desc (x : Q) (l : list Q) : list Q :=
  match l with
  | [] => [x]
  | y :: ys => if Qle_bool y x then x :: l else y :: insert_desc x ys
  end.

Fixpoint sort_desc (l : list Q) : list Q :=
  match l with
  | [] => []
  | x :: xs => insert_desc x (sort_desc xs)
  end.

(** [max(l)]: the first of the greatest elements; [None] on the empty
    list, where Python raises. *)
Definition py_max (l : list Q) : option Q :=
  match l with
  | [] => None
  | x :: xs =>
      Some (fold_left (fun m y => if Qle_bool y m then m else y) xs x)
  end.

(** [sum(l)] *)
Definition py_sum (l : list Q) : Q := fold_left Qplus l 0%Q.

(** ** [analyze_invoice_text] *)

Inductive status_tag : Type :=
| STATUS_OK
| STATUS_APPLIED_DISCOUNT
| STATUS_NEEDS_INTERACTION
| STATUS_NO_AMOUNT.

Record InvoiceData : Type := mkInvoiceData {
  total : option Q;
  notes : text;
  status : status_tag;
  positive_amounts : list Q;
  discounts : list Q
}.

(** Truth value of an optional string: [None] and the empty string are
    false. *)
Definition truthy (o : option text) : bool :=
  match o with
  | Some (_ :: _) => true
  | _ => false
  end.

(** [a or b] on optional strings. *)
Definition por (a b : option text) : option text :=
  if truthy a then a else b.

(** [num_str.replace('.', '').replace(',', '.')] *)
Definition clean (num_str : text) : text :=
  replace_char "," ["."%char] (replace_char "." [] num_str).

(** One turn of the loop over the matches (lines 121-132).  One of the two
    number groups always takes part in a match ([pattern_groups] below), so
    [num_str] is never [None]; the model reads [None] as the empty string
    there. *)
Definition loop_body (acc : list Q * list Q) (g : groups) : list Q * list Q :=
  let '(sign, num_before, num_after) := g in
  let num_str := match por num_before num_after with
                 | Some n => n
                 | None => []
                 end in
  match float_of_string (clean num_str) with
  | Some amount =>
      if truthy sign then (fst acc, snd acc ++ [amount])
      else (fst acc ++ [amount], snd acc)
  | None => acc
  end.

Definition scan_amounts (content : text) : list Q * list Q :=
  fold_left loop_body (finditer content) ([], []).

(** [', '.join([f'-{d:.2f}' for d in discounts])] *)
Definition discounts_found (ds : list Q) : text :=
  join (T ", ") (map (fun d => "-"%char :: format2f d) ds).

(** Lines 134-151: what is done with the two collected lists. *)
Definition classify (positive_amounts discounts : list Q) : InvoiceData :=
  match positive_amounts with
  | [] => mkInvoiceData None (T "No amount found") STATUS_NO_AMOUNT [] []
  | _ :: _ =>
      let positive_amounts := sort_desc positive_amounts in
      let discounts := sort_desc discounts in
      match discounts with
      | [] =>
          mkInvoiceData (Some (hd 0%Q positive_amounts)) [] STATUS_OK
                        positive_amounts discounts
      | d0 :: _ =>
          let main_total := hd 0%Q positive_amounts in
          let calculated_total := round2 (main_total - d0) in
          if existsb (Qeq_bool calculated_total) (map round2 positive_amounts)
          then
            mkInvoiceData (Some calculated_total)
              (T "Discounts found: " ++ discounts_found discounts
                 ++ T ". Applied -" ++ format2f d0 ++ T ".")
              STATUS_APPLIED_DISCOUNT positive_amounts discounts
          else
            mkInvoiceData (Some main_total)
              (T "Discounts found: " ++ discounts_found discounts
                 ++ T ". WARNING: Could not automatically apply.")
              STATUS_NEEDS_INTERACTION positive_amounts discounts
      end
  end.

Definition analyze_invoice_text (content : text) : InvoiceData :=
  let (positive_amounts, discounts) := scan_amounts content in
  classify positive_amounts discounts.

(** ** [interactive_discount_resolver] *)

Definition text_of_Z (z : Z) : text :=
  if (z <? 0)%Z then "-"%char :: text_of_N (Z.to_N (- z))
  else text_of_N (Z.to_N z).

Fixpoint sequence {A} (l : list (option A)) : option (list A) :=
  match l with
  | [] => Some []
  | Some x :: xs => option_map (cons x) (sequence xs)
  | None :: _ => None
  end.

(** [[int(c.strip()) for c in choice_str.split(',')]]; [None] is the
    [ValueError] of the first piece that is no integer. *)
Definition parse_choices (choice_str : text) : option (list Z) :=
  sequence (map (fun c => int_of_string (strip c)) (split_on "," choice_str)).

(** [1 <= c <= len(discounts)] *)
Definition in_range (discounts : list Q) (c : Z) : bool :=
  ((1 <=? c) && (c <=? Z.of_nat (length discounts)))%Z.

(** [discounts[c-1]] *)
Definition pick (discounts : list Q) (c : Z) : Q :=
  nth (Z.to_nat (c - 1)) discounts 0%Q.

(** The [for c in choices] loop (lines 207-213): the selected values, or
    the first choice out of range. *)
Fixpoint select (discounts : list Q) (choices : list Z) (selected : list Q)
  : list Q + Z :=
  match choices with
  | [] => inl selected
  | c :: cs =>
      if in_range discounts c
      then select discounts cs (selected ++ [pick discounts c])
      else inr c
  end.

(** The dialogue as a transition system: the outer [while True] waits for a
    choice, the inner one for an amount; [Resolved] is reached at the
    [break]s and carries [final_total] and [notes]. *)
Inductive rstate : Type :=
| AwaitChoice
| ManualEntry
| Resolved (final_total : Q) (notes : text).

Section Resolver.

(** [positive_amounts[0]] and [discounts], fixed during the dialogue. *)
Variable highest : Q.
Variable discounts : list Q.

(** One line of operator input: the next state and the lines printed. *)
Definition step (st : rstate) (line : text) : rstate * list text :=
  match st with
  | AwaitChoice =>
      let choice_str := upper (strip line) in
      if text_eqb choice_str (T "E") then (ManualEntry, [])
      else if text_eqb choice_str (T "S") then
        (Resolved highest (T "Skipped discount in interactive mode."), [])
      else
        match parse_choices choice_str with
        | None =>
            (AwaitChoice,
             [T "Invalid input. Please enter 'E', 'S', or numbers separated by commas."])
        | Some choices =>
            match select discounts choices [] with
            | inr c =>
                (AwaitChoice,
                 [T "Invalid selection: " ++ text_of_Z c
                    ++ T ". Choices must be between 1 and "
                    ++ text_of_N (N.of_nat (length discounts)) ++ T "."])
            | inl [] => (AwaitChoice, [T "No valid discounts selected."])
            | inl ((_ :: _) as selected_discounts_values) =>
                let total_discount := py_sum selected_discounts_values in
                let final_total := round2 (highest - total_discount) in
                let applied_discounts_str :=
                  join (T ", ") (map format2f selected_discounts_values) in
                (Resolved final_total
                   (T "Manually applied discount(s) of "
                      ++ applied_discounts_str ++ T "."), [])
            end
        end
  | ManualEntry =>
      match float_of_string line with
      | Some custom_total =>
          (Resolved custom_total (T "Manually entered total."), [])
      | None => (ManualEntry, [T "Invalid amount. Please enter a number."])
      end
  | Resolved _ _ => (st, [])
  end.

(** The loop over the operator's lines; it stops at [Resolved]. *)
Fixpoint run (st : rstate) (inputs : list text) : rstate * list text :=
  match st with
  | Resolved _ _ => (st, [])
  | _ =>
      match inputs with
      | [] => (st, [])
      | line :: rest =>
          let (st', out) := step st line in
          let (st'', out') := run st' rest in
          (st'', out ++ out')
      end
  end.

End Resolver.

Inductive resolver_result : Type :=
| Returned (final_total : Q) (notes : text)
| IndexError
| EOFError.

(** The function on the lines the operator will type.  An empty
    [positive_amounts] fails at its index 0 (line 174), the end of the input
    inside [input()]. *)
Definition interactive_discount_resolver
    (positive_amounts discounts : list Q) (inputs : list text)
  : resolver_result * list text :=
  match positive_amounts with
  | [] => (IndexError, [])
  | highest :: _ =>
      match run highest discounts AwaitChoice inputs with
      | (Resolved final_total notes, out) => (Returned final_total notes, out)
      | (_, out) => (EOFError, out)
      end
  end.


(** ** [detect_and_handle_duplicates] *)

Fixpoint starts_with (p s : text) : bool :=
  match p, s with
  | [], _ => true
  | x :: p', y :: s' => Ascii.eqb x y && starts_with p' s'
  | _ :: _, [] => false
  end.

(** [s.endswith(suffix)] *)
Definition endswith (suffix s : text) : bool :=
  starts_with (rev suffix) (rev s).

(** The [hashes] dictionary, in insertion order of its keys. *)
Definition dict := list (text * list text).

(** [if h not in hashes: hashes[h] = []] then [hashes[h].append(f)] *)
Fixpoint dict_append (h f : text) (d : dict) : dict :=
  match d with
  | [] => [(h, [f])]
  | (k, fs) :: d' =>
      if text_eqb k h then (k, fs ++ [f]) :: d'
      else (k, fs) :: dict_append h f d'
  end.

Section Duplicates.

(** [hashlib.sha256(content).hexdigest()] *)
Variable sha256_hexdigest : text -> text.

(** The first loop (lines 22-31) over the directory, given as the names
    in the order of [os.listdir] with the bytes of each file. *)
Definition build_hashes (dir : list (text * text)) : dict :=
  fold_left
    (fun hashes entry =>
       let '(filename, content) := entry in
       if endswith (T ".txt") filename
       then dict_append (sha256_hexdigest content) filename hashes
       else hashes)
    dir [].

(** The groups the second loop reports (line 35). *)
Definition reported (dir : list (text * text)) : dict :=
  filter (fun kv => 1 <? length (snd kv)) (build_hashes dir).

(** The returned flag.  The dialogue about deleting a file does not change
    it and is not part of the model. *)
Definition detect_and_handle_duplicates (dir : list (text * text)) : bool :=
  existsb (fun kv => 1 <? length (snd kv)) (build_hashes dir).

(** The names, in directory order, of the text files whose digest is [h]. *)
Definition same_digest (h : text) (dir : list (text * text)) : list text :=
map fst
  (filter (fun e => endswith (T ".txt") (fst e)
                    && text_eqb (sha256_hexdigest (snd e)) h) dir).

Definition group_at (h : text) (dir : list (text * text))
: option (list text) :=
match same_digest h dir with
| [] => None
| fs => Some fs
end.

End Duplicates.

(** [hashes.get(h)] *)
Fixpoint lookup (h : text) (d : dict) : option (list text) :=
  match d with
  | [] => None
  | (k, fs) :: d' => if text_eqb k h then Some fs else lookup h d'
  end.

(** ** Vocabulary of the properties *)

(** What a sub-pattern leaves is a suffix of its input, shorter by at
    least [k] characters. *)
Definition consuming {A} (k : nat) (p : parser A) : Prop :=
  forall s a r, In (a, r) (p s) -> exists m, s = m ++ r /\ k <= length m.

Definition digit (c : ascii) : Prop := is_digit c = true.
Definition sep (c : ascii) : Prop := is_sep c = true.

(** A separator followed by [n] digits. *)
Definition sep_group (n : nat) (g : text) : Prop :=
  exists c ds, g = c :: ds /\ sep c /\ length ds = n /\ Forall digit ds.

(** One to three digits, any number of groups of a separator and three
    digits, then a separator and two digits; every separator is a full stop
    or a comma, whatever the others are. *)
Definition numeral (n : text) : Prop :=
  exists ds gs g,
    n = ds ++ concat gs ++ g
    /\ 1 <= length ds <= 3 /\ Forall digit ds
    /\ Forall (sep_group 3) gs
    /\ sep_group 2 g.



Definition descending : list Q -> Prop :=
  StronglySorted (fun a b => (b <= a)%Q).

(** The invariant as the specification words it. *)
Definition total_iff_settled (r : InvoiceData) : Prop :=
  total r <> None <->
  status r <> STATUS_NO_AMOUNT /\ status r <> STATUS_NEEDS_INTERACTION.

(** A list is the stable descending sort of another. *)
Definition stable_sort_of (l sorted : list Q) : Prop :=
  descending sorted /\ Permutation sorted l
  /\ forall v, filter (Qeq_bool v) sorted = filter (Qeq_bool v) l.

(** Lines 140-151, on the lists as sorted at lines 137-138. *)
Definition after_sort (P D : list Q) : InvoiceData :=
  match D with
  | [] => mkInvoiceData (Some (hd 0%Q P)) [] STATUS_OK P D
  | d0 :: _ =>
      if existsb (Qeq_bool (round2 (hd 0%Q P - d0))) (map round2 P)
      then
        mkInvoiceData (Some (round2 (hd 0%Q P - d0)))
          (T "Discounts found: " ++ discounts_found D
             ++ T ". Applied -" ++ format2f d0 ++ T ".")
          STATUS_APPLIED_DISCOUNT P D
      else
        mkInvoiceData (Some (hd 0%Q P))
          (T "Discounts found: " ++ discounts_found D
             ++ T ". WARNING: Could not automatically apply.")
          STATUS_NEEDS_INTERACTION P D
  end.

(** [num_str] of a match. *)
Definition num_str (g : groups) : option text :=
  let '(_, num_before, num_after) := g in por num_before num_after.




(** The first match a sub-pattern tries with success. *)
Definition first_is {A} (p : parser A) (s : text) (a : A) (r : text) : Prop :=
  exists l, p s = (a, r) :: l.

(** The text does not begin with a digit. *)
Definition no_digit_ahead (t : text) : Prop :=
  match t with
  | c :: _ => is_digit c = false
  | [] => True
  end.

(** ** Vocabulary of further properties *)

(** The characters a currency marker can begin with: the first byte of the
    euro sign, and the letter E in either case. *)
Definition currency_start (c : ascii) : bool :=
  (Ascii.eqb c (ascii_of_nat 226) || Ascii.eqb c "E" || Ascii.eqb c "e")%bool.

(** What [analyze_invoice_text] returns at line 135. *)
Definition no_amount_found : InvoiceData :=
  mkInvoiceData None (T "No amount found") STATUS_NO_AMOUNT [] [].


(** The text does not begin with white space. *)
Definition no_space_ahead (t : text) : Prop :=
  match t with
  | c :: _ => is_space c = false
  | [] => True
  end.

(** The line printed at line 225 of the resolver. *)
Definition no_valid_message : text := T "No valid discounts selected.".


(** [filename.endswith('.txt')] on a directory entry. *)
Definition is_txt (e : text * text) : bool := endswith (T ".txt") (fst e).

(** All the names of the dictionary's groups, group after group. *)
Definition grouped_names (d : dict) : list text := concat (map snd d).

(** ** File names *)

Definition lower_char (c : ascii) : ascii :=
  if ((65 <=? code c) && (code c <=? 90))%N
  then ascii_of_N (code c + 32) else c.

(** [s.lower()], on the ASCII range. *)
Definition lower (s : text) : text := map lower_char s.

(** [s.rfind(c)]: the index of the last [c], or -1. *)
Fixpoint rfind_from (c : ascii) (s : text) (i found : Z) : Z :=
  match s with
  | [] => found
  | x :: t => rfind_from c t (i + 1) (if Ascii.eqb x c then i else found)
  end.

Definition rfind (c : ascii) (s : text) : Z := rfind_from c s 0 (-1).

(** [p[a:b]] for indices within the string. *)
Definition slice (a b : Z) (p : text) : text :=
  firstn (Z.to_nat (b - a)) (skipn (Z.to_nat a) p).

(** [os.path.splitext(p)] of posixpath: the extension begins at the last
    full stop of the last component, unless only full stops come before it
    in that component. *)
Definition splitext (p : text) : text * text :=
  let sepIndex := rfind "/" p in
  let dotIndex := rfind "." p in
  if ((sepIndex <? dotIndex)%Z
      && existsb (fun c => negb (Ascii.eqb c "."))
           (slice (sepIndex + 1) dotIndex p))%bool
  then (firstn (Z.to_nat dotIndex) p, skipn (Z.to_nat dotIndex) p)
  else (p, []).

(** [os.path.join(a, b)] of posixpath. *)
Definition path_join (a b : text) : text :=
  if starts_with (T "/") b then b
  else if (match a with [] => true | _ => false end || endswith (T "/") a)%bool
       then a ++ b
       else a ++ T "/" ++ b.

(** [f.lower().endswith('.pdf')], the files [convert_pdfs_to_text] takes
    (line 94). *)
Definition is_pdf (filename : text) : bool :=
  endswith (T ".pdf") (lower filename).

(** [txt_filename] of line 102. *)
Definition txt_filename (filename : text) : text :=
  fst (splitext filename) ++ T ".txt".

(** The name of the PDF looked for beside a text file (lines 45, 65 and
    160), and its path. *)
Definition pdf_name (filename : text) : text :=
  fst (splitext filename) ++ T ".pdf".

Definition pdf_path (pdf_dir filename : text) : text :=
  path_join pdf_dir (pdf_name filename).

(** ** The dialogue of [detect_and_handle_duplicates] (lines 53-80) *)

(** The files present in the PDF directory, by path.  [os.path.exists] and
    [os.remove]: *)
Definition path_exists (fs : list text) (p : text) : bool :=
  existsb (text_eqb p) fs.

Definition path_remove (fs : list text) (p : text) : list text :=
  filter (fun q => negb (text_eqb p q)) fs.

(** What the dialogue about one group comes to: an answer, with the files
    left, the input left and the lines printed; or the end of the input
    inside [input()], an [EOFError] that nothing catches. *)
Inductive dialogue_result : Type :=
| Answered (fs : list text) (rest : list text) (out : list text)
| InputEnded (out : list text).

Definition printed_before (out : list text) (r : dialogue_result)
  : dialogue_result :=
  match r with
  | Answered fs rest out' => Answered fs rest (out ++ out')
  | InputEnded out' => InputEnded (out ++ out')
  end.

(** The lines [f"  [{i+1}] {f}"] of lines 57-58, from index [i]. *)
Fixpoint menu_lines (i : nat) (filenames : list text) : list text :=
  match filenames with
  | [] => []
  | f :: fs' =>
      (T "  [" ++ text_of_N (N.of_nat (i + 1)) ++ T "] " ++ f)
        :: menu_lines (i + 1) fs'
  end.

Definition menu (filenames : list text) : list text :=
  (ascii_of_nat 10 :: T "Which file do you want to delete?")
    :: menu_lines 0 filenames
    ++ [T "  [" ++ text_of_N (N.of_nat (length filenames + 1))
          ++ T "] Cancel"].

Section DeleteDialogue.

Variable pdf_dir : text.
Variable filenames : list text.

(** The [while True] loop over the operator's lines. *)
Fixpoint delete_dialogue (fs : list text) (inputs : list text)
  : dialogue_result :=
  match inputs with
  | [] => InputEnded []
  | line :: rest =>
      let choice := lower line in
      if (text_eqb choice (T "y") || text_eqb choice (T "yes"))%bool then
        match rest with
        | [] => InputEnded (menu filenames)
        | line' :: rest' =>
            match int_of_string line' with
            | Some del_choice =>
                if ((1 <=? del_choice)
                    && (del_choice <=? Z.of_nat (length filenames)))%Z
                then
                  let file_to_delete_txt :=
                    nth (Z.to_nat (del_choice - 1)) filenames [] in
                  let file_to_delete_pdf :=
                    pdf_path pdf_dir file_to_delete_txt in
                  if path_exists fs file_to_delete_pdf
                  then Answered (path_remove fs file_to_delete_pdf) rest'
                         (menu filenames
                            ++ [T "Deleted: " ++ file_to_delete_pdf])
                  else Answered fs rest'
                         (menu filenames
                            ++ [T "Error: File not found at "
                                  ++ file_to_delete_pdf])
                else if (del_choice =? Z.of_nat (length filenames) + 1)%Z
                then Answered fs rest'
                       (menu filenames ++ [T "Deletion cancelled."])
                else printed_before (menu filenames ++ [T "Invalid choice."])
                       (delete_dialogue fs rest')
            | None =>
                printed_before
                  (menu filenames
                     ++ [T "Invalid input. Please enter a number."])
                  (delete_dialogue fs rest')
            end
        end
      else if (text_eqb choice (T "n") || text_eqb choice (T "no"))%bool
      then Answered fs rest []
      else delete_dialogue fs rest
  end.

End DeleteDialogue.

(** The second loop (lines 34-80) over the dictionary: a dialogue for every
    group of more than one file, in the order of the keys. *)
Fixpoint handle_groups (pdf_dir : text) (hashes : dict) (fs : list text)
    (inputs : list text) : dialogue_result :=
  match hashes with
  | [] => Answered fs inputs []
  | (_, filenames) :: hashes' =>
      if 1 <? length filenames then
        match delete_dialogue pdf_dir filenames fs inputs with
        | Answered fs' rest out =>
            printed_before out (handle_groups pdf_dir hashes' fs' rest)
        | InputEnded out => InputEnded out
        end
      else handle_groups pdf_dir hashes' fs inputs
  end.

(** What one dialogue may have done to the files [fs]. *)
Definition at_most_one_removed (pdf_dir : text) (filenames fs fs' : list text)
  : Prop :=
  fs' = fs
  \/ exists f, In f filenames
               /\ path_exists fs (pdf_path pdf_dir f) = true
               /\ fs' = path_remove fs (pdf_path pdf_dir f).


(** One part of a numeral after its first digits: whether its separator is
    a comma, and its digits. *)
Definition piece : Type := bool * text.

Definition piece_text (p : piece) : text :=
  (if fst p then ","%char else "."%char) :: snd p.

(** What [clean] makes of a part: the full stop goes, the comma becomes the
    decimal point. *)
Definition piece_clean (p : piece) : text :=
  if fst p then "."%char :: snd p else snd p.

(** The number of commas of a text. *)
Definition commas (s : text) : nat := length (filter (Ascii.eqb ",") s).

(** Blocks of digits with a full stop between them. *)
Fixpoint dotted (b : text) (bs : list text) : text :=
  match bs with
  | [] => b
  | b' :: bs' => b ++ "."%char :: dotted b' bs'
  end.

Definition digit_block (b : text) : Prop := Forall digit b /\ b <> [].

(** The text is over, or goes on with a full stop. *)
Definition stops (r : text) : Prop :=
  match r with
  | [] => True
  | c :: _ => c = "."%char
  end.

(** ** The passes of [main] (lines 254-301) *)

(** The order of [sorted] on strings: by code points, which is the order of
    the UTF-8 bytes. *)
Fixpoint text_leb (a b : text) : bool :=
  match a, b with
  | [], _ => true
  | _ :: _, [] => false
  | x :: a', y :: b' =>
      if (code x <? code y)%N then true
      else if (code y <? code x)%N then false
      else text_leb a' b'
  end.

(** [sorted(names)]: ascending and stable. *)
Fixpoint insert_name (x : text) (l : list text) : list text :=
  match l with
  | [] => [x]
  | y :: ys => if text_leb x y then x :: l else y :: insert_name x ys
  end.

Fixpoint sort_names (l : list text) : list text :=
  match l with
  | [] => []
  | x :: xs => insert_name x (sort_names xs)
  end.

(** Reading in text mode turns the line ends CR LF and CR into LF. *)
Fixpoint universal_newlines (s : text) : text :=
  match s with
  | [] => []
  | c :: t =>
      if Ascii.eqb c (ascii_of_nat 13) then
        match t with
        | c' :: t' =>
            if Ascii.eqb c' (ascii_of_nat 10)
            then ascii_of_nat 10 :: universal_newlines t'
            else ascii_of_nat 10 :: universal_newlines t
        | [] => [ascii_of_nat 10]
        end
      else c :: universal_newlines t
  end.

(** The text read from the file of that name (lines 265-267); the bytes
    are those of a UTF-8 text, as the converter writes them. *)
Definition content_of (dir : list (text * text)) (filename : text) : text :=
  match find (fun e => text_eqb (fst e) filename) dir with
  | Some e => universal_newlines (snd e)
  | None => []
  end.

(** The first pass (lines 259-269): the text files in the order of their
    names, each with its analysis. *)
Definition first_pass (dir : list (text * text))
  : list (text * InvoiceData) :=
  map (fun filename =>
         (filename, analyze_invoice_text (content_of dir filename)))
      (sort_names (map fst (filter is_txt dir))).

(** The loop of the resolver once more, with the input it leaves. *)
Fixpoint run_rest (highest : Q) (discounts : list Q) (st : rstate)
    (inputs : list text) : rstate * list text * list text :=
  match st with
  | Resolved _ _ => (st, [], inputs)
  | _ =>
      match inputs with
      | [] => (st, [], [])
      | line :: rest =>
          let (st', out) := step highest discounts st line in
          let '(st'', out', rest') := run_rest highest discounts st' rest in
          (st'', out ++ out', rest')
      end
  end.

Definition resolver_rest (positive_amounts discounts : list Q)
    (inputs : list text) : resolver_result * list text * list text :=
  match positive_amounts with
  | [] => (IndexError, [], inputs)
  | highest :: _ =>
      match run_rest highest discounts AwaitChoice inputs with
      | (Resolved final_total notes, out, rest) =>
          (Returned final_total notes, out, rest)
      | (_, out, rest) => (EOFError, out, rest)
      end
  end.

(** A line of the report: file, total, notes. *)
Definition row : Type := text * option Q * text.

Definition row_file (r : row) : text := fst (fst r).
Definition row_total (r : row) : option Q := snd (fst r).
Definition row_notes (r : row) : text := snd r.

(** The second pass (lines 272-280) on the operator's lines: the rows, the
    lines printed and the input left; [None] when a resolver fails. *)
Fixpoint second_pass (results : list (text * InvoiceData))
    (inputs : list text) : option (list row * list text * list text) :=
  match results with
  | [] => Some ([], [], inputs)
  | (filename, invoice_data) :: results' =>
      match status invoice_data with
      | STATUS_NEEDS_INTERACTION =>
          match resolver_rest (positive_amounts invoice_data)
                  (discounts invoice_data) inputs with
          | (Returned new_total new_notes, out, rest) =>
              match second_pass results' rest with
              | Some (rows, out', rest') =>
                  Some ((filename, Some new_total, new_notes) :: rows,
                        out ++ out', rest')
              | None => None
              end
          | _ => None
          end
      | _ =>
          match second_pass results' inputs with
          | Some (rows, out, rest) =>
              Some ((filename, total invoice_data, notes invoice_data)
                      :: rows, out, rest)
          | None => None
          end
      end
  end.

(** [grand_total] of lines 283-293. *)
Definition grand_total (rows : list row) : Q :=
  fold_left (fun acc r => match row_total r with
                          | Some t => (acc + t)%Q
                          | None => acc
                          end) rows 0%Q.

(** What [main] comes to once the PDFs are converted: the early exit after
    duplicates, the report with its rows, grand total and item count, or
    the failure of a resolver. *)
Inductive main_result : Type :=
| Rerun
| Report (rows : list row) (grand : Q) (invoice_count : nat)
| Failed.

Definition main_passes (sha256_hexdigest : text -> text)
    (dir : list (text * text)) (inputs : list text) : main_result :=
  if detect_and_handle_duplicates sha256_hexdigest dir then Rerun
  else
    match second_pass (first_pass dir) inputs with
    | Some (rows, _, _) => Report rows (grand_total rows) (length rows)
    | None => Failed
    end.

(** Ascending order of names. *)
Definition names_ascending : list text -> Prop :=
  Sorted (fun a b => text_leb a b = true).



(** How far a state of the dialogue is from its end. *)
Definition rank (st : rstate) : nat :=
  match st with
  | AwaitChoice => 2
  | ManualEntry => 1
  | Resolved _ _ => 0
  end.

(** * Properties *)

(** ** Text *)

Lemma text_eqb_eq (a b : text) : text_eqb a b = true <-> a = b.
Proof.
  revert b; induction a as [|x a IH]; intros [|y b]; simpl;
    try (split; [discriminate | discriminate]); try tauto.
  rewrite andb_true_iff, Ascii.eqb_eq, IH.
  split; [intros [-> ->]; reflexivity | intros E; injection E; tauto].
Qed.

Lemma text_eqb_refl (a : text) : text_eqb a a = true.
Proof. apply text_eqb_eq; reflexivity. Qed.



(** ** The matcher *)

Module ReFacts.

Section Combinators.

Context {A B : Type}.

Lemma in_ret (a b : A) (s r : text) :
  In (b, r) (ret a s) <-> b = a /\ r = s.
Proof.
  unfold ret; simpl; split.
  - intros [E|[]]; injection E; auto.
  - intros [-> ->]; auto.
Qed.

Lemma in_bind (p : parser A) (f : A -> parser B) s b r :
  In (b, r) (bind p f s) <->
  exists a r', In (a, r') (p s) /\ In (b, r) (f a r').
Proof.
  unfold bind; rewrite in_flat_map; split.
  - intros [[a r'] [H1 H2]]; exists a, r'; auto.
  - intros (a & r' & H1 & H2); exists (a, r'); auto.
Qed.

Lemma in_alt (p q : parser A) s a r :
  In (a, r) (alt p q s) <-> In (a, r) (p s) \/ In (a, r) (q s).
Proof. unfold alt; apply in_app_iff. Qed.

Lemma in_opt (p : parser A) s o r :
  In (o, r) (opt p s) <->
  (exists a, o = Some a /\ In (a, r) (p s)) \/ (o = None /\ r = s).
Proof.
  unfold opt; rewrite in_app_iff, in_map_iff; simpl; split.
  - intros [[[a r'] [E H]]|[E|[]]]; simpl in E; injection E; intros; subst.
    + left; exists a; auto.
    + right; auto.
  - intros [(a & -> & H)|[-> ->]]; [left; exists (a, r); auto | auto].
Qed.

End Combinators.


Lemma in_sat (f : ascii -> bool) s c r :
  In (c, r) (sat f s) <-> s = c :: r /\ f c = true.
Proof.
  unfold sat; destruct s as [|x t]; simpl.
  - split; [tauto | intros [E _]; discriminate].
  - destruct (f x) eqn:Hx; simpl; split.
    + intros [E|[]]; injection E; intros; subst; auto.
    + intros [E H]; injection E; intros; subst; auto.
    + tauto.
    + intros [E H]; injection E; intros; subst; congruence.
Qed.

Section Repetition.

Context {A : Type} (p : parser A) (Q : A -> Prop).
Hypothesis p_ok : forall s a r, In (a, r) (p s) -> Q a.






(** The length of the input is fuel enough: more changes nothing. *)
Lemma star_fuel_enough n m s :
  length s <= n -> length s <= m -> star_fuel n p s = star_fuel m p s.
Proof.
  assert (stuck : forall k, star_fuel (S k) p [] = [([], [])]).
  { intros k; simpl.
    replace (flat_map _ (p [])) with (@nil (list A * text)); auto.
    induction (p []) as [|ar l IHl]; simpl; auto. }
  revert m s; induction n as [|n IH]; intros [|m] s Hn Hm; auto.
  - destruct s; [|simpl in Hn; lia]; rewrite stuck; reflexivity.
  - destruct s; [|simpl in Hm; lia]; rewrite stuck; reflexivity.
  - simpl; f_equal; apply flat_map_ext; intros [a r']; simpl.
    destruct (length r' <? length s) eqn:E; auto.
    apply Nat.ltb_lt in E; f_equal; apply IH; lia.
Qed.

End Repetition.

Lemma consuming_weaken {A} j k (p : parser A) :
  j <= k -> consuming k p -> consuming j p.
Proof.
  intros Hjk Hp s a r H; destruct (Hp s a r H) as (m & E & L).
  exists m; split; [exact E | lia].
Qed.

Lemma consuming_ret {A} (a : A) : consuming 0 (ret a).
Proof.
  intros s b r H; apply in_ret in H; destruct H as [_ ->].
  exists []; split; [reflexivity | simpl; lia].
Qed.

Lemma consuming_bind {A B} j k (p : parser A) (f : A -> parser B) :
  consuming j p -> (forall a, consuming k (f a)) ->
  consuming (j + k) (bind p f).
Proof.
  intros Hp Hf s b r H; apply in_bind in H.
  destruct H as (a & r' & H1 & H2).
  destruct (Hp _ _ _ H1) as (m1 & -> & L1).
  destruct (Hf a _ _ _ H2) as (m2 & -> & L2).
  exists (m1 ++ m2); rewrite app_assoc, length_app; split; [reflexivity|lia].
Qed.

Lemma consuming_alt {A} k (p q : parser A) :
  consuming k p -> consuming k q -> consuming k (alt p q).
Proof.
  intros Hp Hq s a r H; apply in_alt in H; destruct H; eauto.
Qed.

Lemma consuming_sat f : consuming 1 (sat f).
Proof.
  intros s c r H; apply in_sat in H; destruct H as [-> _].
  exists [c]; split; [reflexivity | simpl; lia].
Qed.

Lemma consuming_opt {A} (p : parser A) :
  consuming 0 p -> consuming 0 (opt p).
Proof.
  intros Hp s o r H; apply in_opt in H.
  destruct H as [(a & _ & H)|[_ ->]]; [eauto|].
  exists []; split; [reflexivity | simpl; lia].
Qed.

Lemma consuming_cons {A} j k (p : parser A) (q : parser (list A)) :
  consuming j p -> consuming k q ->
  consuming (j + k) (bind p (fun x => bind q (fun xs => ret (x :: xs)))).
Proof.
  intros Hp Hq; apply consuming_bind; [exact Hp|]; intros x.
  apply consuming_weaken with (k + 0); [lia|].
  apply consuming_bind; [exact Hq|]; intros xs; apply consuming_ret.
Qed.

Lemma consuming_rep {A} k n (p : parser A) :
  consuming k p -> consuming (n * k) (rep n p).
Proof.
  intros Hp; induction n as [|n IH]; [apply consuming_ret|].
  apply (consuming_cons Hp IH).
Qed.

Lemma consuming_rep_upto {A} n (p : parser A) :
  consuming 0 p -> consuming 0 (rep_upto n p).
Proof.
  intros Hp; induction n as [|n IH]; [apply consuming_ret|].
  apply consuming_alt; [apply (consuming_cons Hp IH) | apply consuming_ret].
Qed.

Lemma consuming_rep_range {A} k lo extra (p : parser A) :
  consuming k p -> consuming (lo * k) (rep_range lo extra p).
Proof.
  intros Hp; apply consuming_weaken with (lo * k + 0); [lia|].
  apply consuming_bind; [apply consuming_rep, Hp|]; intros xs.
  apply (@consuming_bind _ _ 0 0);
    [apply consuming_rep_upto, consuming_weaken with k; [lia|exact Hp]|].
  intros ys; apply consuming_ret.
Qed.

Lemma consuming_star {A} (p : parser A) : consuming 0 p -> consuming 0 (star p).
Proof.
  intros Hp; unfold star.
  assert (G : forall n, consuming 0 (star_fuel n p)).
  { induction n as [|n IH]; intros s xs r H; simpl in H.
    - destruct H as [E|[]]; injection E; intros; subst.
      exists []; split; [reflexivity | simpl; lia].
    - apply in_app_iff in H; destruct H as [H|[E|[]]].
      + apply in_flat_map in H; destruct H as ([a r'] & H1 & H2).
        simpl in H2; destruct (length r' <? length s); [|destruct H2].
        apply in_map_iff in H2; destruct H2 as ([ys r''] & E & H2).
        simpl in E; injection E; intros; subst.
        destruct (Hp _ _ _ H1) as (m1 & -> & _).
        destruct (IH _ _ _ H2) as (m2 & -> & _).
        exists (m1 ++ m2); rewrite app_assoc; split; [reflexivity|lia].
      + injection E; intros; subst.
        exists []; split; [reflexivity | simpl; lia]. }
  intros s; apply G.
Qed.

Lemma consuming_lit ci l : consuming 0 (lit ci l).
Proof.
  induction l as [|c l IH]; [apply consuming_ret|].
  apply consuming_weaken with (1 + 0); [lia|].
  apply (consuming_cons (consuming_sat _) IH).
Qed.

Lemma first_ret {A} (a : A) s : first_is (ret a) s a s.
Proof. exists []; reflexivity. Qed.

Lemma first_bind {A B} (p : parser A) (f : A -> parser B) s a r b r' :
  first_is p s a r -> first_is (f a) r b r' -> first_is (bind p f) s b r'.
Proof.
  intros [l E] [l' E']; unfold first_is, bind; rewrite E; simpl; rewrite E'.
  eexists; reflexivity.
Qed.

Lemma bind_none {A B} (p : parser A) (f : A -> parser B) s :
  p s = [] -> bind p f s = [].
Proof. intros E; unfold bind; rewrite E; reflexivity. Qed.

Lemma first_alt_l {A} (p q : parser A) s a r :
  first_is p s a r -> first_is (alt p q) s a r.
Proof. intros [l E]; unfold first_is, alt; rewrite E; eexists; reflexivity. Qed.

Lemma first_alt_r {A} (p q : parser A) s a r :
  p s = [] -> first_is q s a r -> first_is (alt p q) s a r.
Proof. intros E [l E']; unfold first_is, alt; rewrite E, E'; eexists; reflexivity. Qed.

Lemma first_sat f c t : f c = true -> first_is (sat f) (c :: t) c t.
Proof. intros H; exists []; simpl; rewrite H; reflexivity. Qed.

Lemma first_cons {A} (p : parser A) (q : parser (list A)) s x r xs r' :
  first_is p s x r -> first_is q r xs r' ->
  first_is (bind p (fun y => bind q (fun ys => ret (y :: ys)))) s (x :: xs) r'.
Proof.
  intros Hp Hq; eapply first_bind; [exact Hp|].
  eapply first_bind; [exact Hq | apply first_ret].
Qed.

Lemma sat_none f t :
  match t with c :: _ => f c = false | [] => True end -> sat f t = [].
Proof. destruct t as [|c t]; simpl; [reflexivity|]; intros ->; reflexivity. Qed.

End ReFacts.

(** ** The shape of a matched numeral *)







(** A match takes at least one character. *)
Lemma pattern_consuming : consuming 1 pattern.
Proof.
  assert (W : consuming 0 (star (sat is_space))).
  { apply ReFacts.consuming_star, ReFacts.consuming_weaken with 1;
      [lia | apply ReFacts.consuming_sat]. }
  assert (C : consuming 0 currency).
  { apply ReFacts.consuming_alt; apply ReFacts.consuming_lit. }
  assert (G : forall n, consuming 0 (group_of n)).
  { intros n; apply (@ReFacts.consuming_bind _ _ 0 0);
      [apply ReFacts.consuming_weaken with 1;
       [lia | apply ReFacts.consuming_sat]|].
    intros c; apply (@ReFacts.consuming_bind _ _ 0 0);
      [|intros; apply ReFacts.consuming_ret].
    apply ReFacts.consuming_weaken with (n * 0); [lia|].
    apply ReFacts.consuming_rep, ReFacts.consuming_weaken with 1;
      [lia | apply ReFacts.consuming_sat]. }
  assert (N : consuming 1 number).
  { apply (@ReFacts.consuming_bind _ _ 1 0);
      [apply (@ReFacts.consuming_rep_range _ 1 1 2), ReFacts.consuming_sat|].
    intros ds; apply (@ReFacts.consuming_bind _ _ 0 0);
      [apply ReFacts.consuming_star, G|].
    intros gs; apply (@ReFacts.consuming_bind _ _ 0 0); [apply G|].
    intros g; apply ReFacts.consuming_ret. }
  apply (@ReFacts.consuming_bind _ _ 0 1).
  - apply ReFacts.consuming_opt, (@ReFacts.consuming_bind _ _ 0 0);
      [apply ReFacts.consuming_weaken with 1;
       [lia | apply ReFacts.consuming_sat]|].
    intros c; apply (@ReFacts.consuming_bind _ _ 0 0); [exact W|].
    intros ws; apply ReFacts.consuming_ret.
  - intros sg; apply ReFacts.consuming_alt.
    + apply (@ReFacts.consuming_bind _ _ 0 1); [exact C|]; intros _.
      apply (@ReFacts.consuming_bind _ _ 0 1); [exact W|]; intros _.
      apply (@ReFacts.consuming_bind _ _ 1 0); [exact N|]; intros n.
      apply ReFacts.consuming_ret.
    + apply (@ReFacts.consuming_bind _ _ 1 0); [exact N|]; intros n.
      apply (@ReFacts.consuming_bind _ _ 0 0); [exact W|]; intros _.
      apply (@ReFacts.consuming_bind _ _ 0 0); [exact C|]; intros _.
      apply ReFacts.consuming_ret.
Qed.

Lemma finditer_from_skip m rest :
  finditer_from (length m) (m ++ rest) = finditer rest.
Proof. induction m as [|c m IH]; [reflexivity | exact IH]. Qed.

(** The two equations of [finditer]: after a match the search goes on at
    its end, and without one it moves on by a character. *)
Lemma finditer_match s g rest l :
  pattern s = (g, rest) :: l -> finditer s = g :: finditer rest.
Proof.
  intros E.
  destruct (@pattern_consuming s g rest) as (m & -> & L);
    [rewrite E; left; reflexivity|].
  destruct m as [|c m]; [simpl in L; lia|].
  unfold finditer at 1; cbn [finditer_from app]; cbn [app] in E; rewrite E.
  f_equal; rewrite <- (finditer_from_skip m rest); f_equal.
  cbn [length]; rewrite length_app; lia.
Qed.

Lemma finditer_no_match c t :
  pattern (c :: t) = [] -> finditer (c :: t) = finditer t.
Proof. intros E; unfold finditer; simpl; rewrite E; reflexivity. Qed.

(** *** Every numeral before a euro sign is matched *)

Lemma first_rep_digits ds t :
  Forall digit ds ->
  first_is (rep (length ds) (sat is_digit)) (ds ++ t) ds t.
Proof.
  induction 1 as [|d ds Hd _ IH]; [apply ReFacts.first_ret|].
  eapply ReFacts.first_cons; [apply ReFacts.first_sat, Hd | exact IH].
Qed.

Lemma first_rep_upto_digits n ds t :
  Forall digit ds -> length ds <= n -> no_digit_ahead t ->
  first_is (rep_upto n (sat is_digit)) (ds ++ t) ds t.
Proof.
  intros Hds; revert n; induction Hds as [|d ds Hd _ IH]; intros n Hn Ht.
  - destruct n as [|n]; [apply ReFacts.first_ret|].
    apply ReFacts.first_alt_r; [|apply ReFacts.first_ret].
    apply ReFacts.bind_none, ReFacts.sat_none, Ht.
  - destruct n as [|n]; [simpl in Hn; lia|].
    apply ReFacts.first_alt_l; eapply ReFacts.first_cons; [apply ReFacts.first_sat, Hd|].
    apply IH; [simpl in Hn; lia | exact Ht].
Qed.

Lemma first_digits ds t :
  Forall digit ds -> 1 <= length ds <= 3 -> no_digit_ahead t ->
  first_is (rep_range 1 2 (sat is_digit)) (ds ++ t) ds t.
Proof.
  intros Hds Hl Ht; destruct Hds as [|d ds Hd Hds]; [simpl in Hl; lia|].
  unfold rep_range; eapply ReFacts.first_bind.
  - apply (first_rep_digits (ds ++ t) (Forall_cons d Hd (Forall_nil _))).
  - eapply ReFacts.first_bind; [|apply ReFacts.first_ret].
    apply first_rep_upto_digits; auto; simpl in Hl; lia.
Qed.

Lemma first_group_of n c ds t :
  sep c -> Forall digit ds -> length ds = n ->
  first_is (group_of n) (c :: ds ++ t) (c :: ds) t.
Proof.
  intros Hc Hds <-; unfold group_of.
  eapply ReFacts.first_bind; [apply ReFacts.first_sat, Hc|].
  eapply ReFacts.first_bind; [apply first_rep_digits, Hds | apply ReFacts.first_ret].
Qed.

Lemma first_groups gs t :
  Forall (sep_group 3) gs -> group_of 3 t = [] ->
  first_is (star (group_of 3)) (concat gs ++ t) gs t.
Proof.
  intros Hgs Ht; unfold star.
  assert (G : forall n, length gs <= n ->
              first_is (star_fuel n (group_of 3)) (concat gs ++ t) gs t).
  { induction Hgs as [|g gs Hg _ IH]; intros n Hn.
    - destruct n as [|n]; [eexists; reflexivity|].
      unfold first_is; simpl; rewrite Ht; eexists; reflexivity.
    - destruct n as [|n]; [simpl in Hn; lia|].
      destruct Hg as (c & ds & -> & Hc & Hl & Hds).
      destruct (first_group_of (concat gs ++ t) Hc Hds Hl) as [l E].
      destruct (IH n) as [l' E']; [simpl in Hn; lia|].
      unfold first_is.
      cbn [star_fuel concat]; rewrite <- !app_assoc; cbn [app].
      rewrite E; cbn [flat_map fst snd].
      replace (length (concat gs ++ t) <? length (c :: ds ++ concat gs ++ t))
        with true
        by (symmetry; apply Nat.ltb_lt; simpl; rewrite !length_app; lia).
      rewrite E'; eexists; reflexivity. }
  apply G.
  assert (L : forall l, Forall (sep_group 3) l -> length l <= length (concat l)).
  { induction 1 as [|g l (c & ds & -> & _) _ IH]; simpl; [lia|].
    rewrite length_app; lia. }
  rewrite length_app; specialize (L gs Hgs); lia.
Qed.

Lemma sep_not_digit c : sep c -> is_digit c = false.
Proof.
  unfold sep, is_sep; intros H; apply orb_true_iff in H.
  destruct H as [H|H]; apply Ascii.eqb_eq in H; subst c; reflexivity.
Qed.

Lemma group_of_3_short g t :
  sep_group 2 g -> no_digit_ahead t -> group_of 3 (g ++ t) = [].
Proof.
  intros (c & ds & -> & Hc & Hl & Hds) Ht.
  destruct ds as [|d1 [|d2 [|d3 ds]]]; try discriminate Hl.
  inversion Hds as [|? ? Hd1 Hds']; subst.
  inversion Hds' as [|? ? Hd2 _]; subst.
  unfold group_of, bind, sep, digit in *; cbn [app sat].
  rewrite Hc; cbn [flat_map fst snd app rep bind sat].
  unfold bind; cbn [sat]; rewrite Hd1; cbn [flat_map fst snd app sat].
  rewrite Hd2; cbn [flat_map fst snd app].
  rewrite (ReFacts.sat_none is_digit t Ht); reflexivity.
Qed.

Lemma sep_group_ahead n g t : sep_group n g -> no_digit_ahead (g ++ t).
Proof. intros (c & ds & -> & Hc & _); simpl; apply sep_not_digit, Hc. Qed.

Lemma first_number n t :
  numeral n -> no_digit_ahead t -> first_is number (n ++ t) n t.
Proof.
  intros (ds & gs & g & -> & Hl & Hds & Hgs & Hg) Ht.
  rewrite <- !app_assoc; unfold number.
  eapply ReFacts.first_bind.
  - apply first_digits; auto.
    destruct Hgs as [|g' gs' Hg' _]; simpl;
      [eapply sep_group_ahead; eauto|].
    rewrite <- app_assoc; eapply sep_group_ahead; eauto.
  - eapply ReFacts.first_bind;
      [apply first_groups; [exact Hgs | apply group_of_3_short; auto]|].
    destruct Hg as (c & cs & -> & Hc & Hlc & Hcs).
    eapply ReFacts.first_bind; [apply first_group_of; eauto | apply ReFacts.first_ret].
Qed.

Lemma numeral_head n : numeral n -> exists d n', n = d :: n' /\ digit d.
Proof.
  intros (ds & gs & g & -> & [Hl _] & Hds & _).
  destruct Hds as [|d ds Hd _]; [simpl in Hl; lia|].
  exists d, (ds ++ concat gs ++ g); auto.
Qed.

Lemma currency_not_digit d t : digit d -> currency (d :: t) = [].
Proof.
  unfold digit; intros Hd.
  destruct d as [[] [] [] [] [] [] [] []]; try discriminate Hd; reflexivity.
Qed.

Lemma sign_marker_digit d t :
  digit d -> sign_marker (d :: t) = [(None, d :: t)].
Proof.
  unfold digit; intros Hd.
  destruct d as [[] [] [] [] [] [] [] []]; try discriminate Hd; reflexivity.
Qed.

Lemma first_pattern n rest :
  numeral n -> first_is pattern (n ++ euro ++ rest) (None, None, Some n) rest.
Proof.
  intros Hn; destruct (numeral_head Hn) as (d & n' & E & Hd); subst n.
  unfold pattern; eapply ReFacts.first_bind.
  - unfold first_is; cbn [app].
    rewrite (sign_marker_digit _ Hd); eexists; reflexivity.
  - apply ReFacts.first_alt_r; [apply ReFacts.bind_none, (currency_not_digit _ Hd)|].
    eapply ReFacts.first_bind;
      [apply (@first_number (d :: n') (euro ++ rest) Hn); reflexivity|].
    eapply ReFacts.first_bind; [eexists; reflexivity|].
    eapply ReFacts.first_bind; [eexists; reflexivity | apply ReFacts.first_ret].
Qed.

Lemma finditer_numeral n rest :
  numeral n ->
  finditer (n ++ euro ++ rest) = (None, None, Some n) :: finditer rest.
Proof.
  intros Hn; destruct (first_pattern rest Hn) as [l E].
  apply (finditer_match _ E).
Qed.

(** ** Numerals read by [float] *)
















(** ** Sorting and the maximum *)

Lemma Qle_bool_false x y : Qle_bool x y = false -> (y < x)%Q.
Proof.
  intros H; apply Qnot_le_lt; intros L.
  apply Qle_bool_iff in L; congruence.
Qed.

Lemma insert_desc_perm x l : Permutation (insert_desc x l) (x :: l).
Proof.
  induction l as [|y ys IH]; simpl; auto.
  destruct (Qle_bool y x); auto.
  rewrite IH; apply perm_swap.
Qed.

Lemma sort_desc_perm l : Permutation (sort_desc l) l.
Proof.
  induction l as [|x xs IH]; simpl; auto.
  rewrite insert_desc_perm; auto.
Qed.

Lemma insert_desc_sorted x l : descending l -> descending (insert_desc x l).
Proof.
  induction 1 as [|y ys Hys IH Hy]; simpl.
  - repeat constructor.
  - destruct (Qle_bool y x) eqn:E.
    + apply Qle_bool_iff in E; constructor; [constructor; auto|].
      constructor; auto.
      eapply Forall_impl; [|exact Hy]; intros a Ha; simpl in Ha.
      apply Qle_trans with y; auto.
    + apply Qle_bool_false in E; constructor; auto.
      apply Forall_forall; intros a Ha.
      apply (Permutation_in _ (insert_desc_perm x ys)) in Ha.
      destruct Ha as [<-|Ha]; [apply Qlt_le_weak; auto|].
      rewrite Forall_forall in Hy; auto.
Qed.

Lemma sort_desc_sorted l : descending (sort_desc l).
Proof.
  induction l as [|x xs IH]; simpl; [constructor|].
  apply insert_desc_sorted, IH.
Qed.

(** Equal elements keep the order they had. *)
Lemma insert_desc_stable v x l :
  filter (Qeq_bool v) (insert_desc x l) = filter (Qeq_bool v) (x :: l).
Proof.
  induction l as [|y ys IH]; auto.
  cbn [insert_desc]; destruct (Qle_bool y x) eqn:E; auto.
  apply Qle_bool_false in E.
  cbn [filter] in *; rewrite IH.
  destruct (Qeq_bool v x) eqn:Ex, (Qeq_bool v y) eqn:Ey; auto.
  apply Qeq_bool_eq in Ex, Ey; rewrite <- Ex, <- Ey in E.
  exfalso; revert E; apply Qlt_irrefl.
Qed.

Lemma sort_desc_stable v l :
  filter (Qeq_bool v) (sort_desc l) = filter (Qeq_bool v) l.
Proof.
  induction l as [|x xs IH]; auto.
  cbn [sort_desc]; rewrite insert_desc_stable.
  cbn [filter]; rewrite IH; reflexivity.
Qed.

Lemma sort_desc_fixed l : descending l -> sort_desc l = l.
Proof.
  induction 1 as [|x xs Hxs IH Hx]; simpl; auto.
  rewrite IH; destruct xs as [|y ys]; auto.
  inversion Hx as [|? ? Hy _]; subst.
  simpl; apply Qle_bool_iff in Hy; rewrite Hy; reflexivity.
Qed.

Lemma insert_desc_cons x l : exists y ys, insert_desc x l = y :: ys.
Proof.
  destruct l as [|z zs]; simpl; [eauto|].
  destruct (Qle_bool z x); eauto.
Qed.

Lemma sort_desc_cons x l : exists y ys, sort_desc (x :: l) = y :: ys.
Proof. simpl; apply insert_desc_cons. Qed.

Lemma hd_insert_twice x y s :
  hd 0%Q (insert_desc x (insert_desc y s))
  = hd 0%Q (insert_desc (if Qle_bool y x then x else y) s).
Proof.
  destruct (Qle_bool y x) eqn:E.
  - destruct s as [|h s']; simpl; [rewrite E; reflexivity|].
    destruct (Qle_bool h y) eqn:Ehy; simpl.
    + rewrite E; apply Qle_bool_iff in E, Ehy.
      assert (L : Qle_bool h x = true)
        by (apply Qle_bool_iff, Qle_trans with y; auto).
      rewrite L; reflexivity.
    + destruct (Qle_bool h x); reflexivity.
  - destruct s as [|h s']; simpl; [rewrite E; reflexivity|].
    destruct (Qle_bool h y) eqn:Ehy; simpl.
    + rewrite E; reflexivity.
    + apply Qle_bool_false in E, Ehy.
      destruct (Qle_bool h x) eqn:Ehx; [|reflexivity].
      apply Qle_bool_iff in Ehx; exfalso.
      apply (Qlt_irrefl x), Qlt_le_trans with h; auto.
      apply Qlt_trans with y; auto.
Qed.

(** The first element after the sort is Python's [max]. *)
Lemma py_max_sort_desc l :
  py_max l = match l with
             | [] => None
             | _ :: _ => Some (hd 0%Q (sort_desc l))
             end.
Proof.
  destruct l as [|x xs]; [reflexivity|]; unfold py_max; f_equal.
  revert x; induction xs as [|y ys IH]; intros x; [reflexivity|].
  cbn [fold_left]; rewrite IH.
  cbn [sort_desc]; rewrite hd_insert_twice; reflexivity.
Qed.


(** ** Rounding *)




(** ** Reconciliation (lines 134-151) *)




(** C4, as stated, fails: one amount of 100.00 and one discount of 10.00
    leave the result pending, and it carries the total 100.00. *)
Lemma pending_result_carries_total :
  status (classify [100.00%Q] [10.00%Q]) = STATUS_NEEDS_INTERACTION
  /\ total (classify [100.00%Q] [10.00%Q]) = Some 100.00%Q
  /\ ~ total_iff_settled (classify [100.00%Q] [10.00%Q]).
Proof.
  split; [reflexivity|]; split; [reflexivity|].
  intros [H _]; destruct H as [_ H]; [discriminate|].
  apply H; reflexivity.
Qed.

(** C4, amended.  The total is absent exactly on NO_AMOUNT; every other
    outcome carries a total, and on NEEDS_INTERACTION it is the greatest
    positive amount, kept as a provisional value. *)
Theorem total_present_unless_no_amount (P D : list Q) :
  let r := classify P D in
  match status r with
  | STATUS_NO_AMOUNT => total r = None
  | STATUS_NEEDS_INTERACTION =>
      exists t, total r = Some t /\ py_max P = Some t
  | STATUS_OK | STATUS_APPLIED_DISCOUNT => exists t, total r = Some t
  end.
Proof.
  cbv zeta; unfold classify.
  destruct P as [|p P']; [reflexivity|].
  destruct (sort_desc D) as [|d0 ds]; [simpl; eauto|].
  destruct (existsb _ _); cbn [status total]; eauto.
  eexists; split; [reflexivity|].
  rewrite py_max_sort_desc; reflexivity.
Qed.

Lemma sort_desc_stable_sort l : stable_sort_of l (sort_desc l).
Proof.
  split; [apply sort_desc_sorted|].
  split; [apply sort_desc_perm | intros v; apply sort_desc_stable].
Qed.

Lemma classify_lists P D :
  positive_amounts (classify P D) = sort_desc P
  /\ discounts (classify P D)
     = match P with [] => [] | _ :: _ => sort_desc D end.
Proof.
  unfold classify; destruct P as [|p P']; [auto|].
  destruct (sort_desc D) as [|d0 ds]; [auto|].
  destruct (existsb _ _); auto.
Qed.

Lemma classify_cons p P D :
  classify (p :: P) D = after_sort (sort_desc (p :: P)) (sort_desc D).
Proof. reflexivity. Qed.

Lemma classify_again P D :
  classify (positive_amounts (classify P D)) (discounts (classify P D))
  = classify P D.
Proof.
  destruct (classify_lists P D) as [EP ED]; rewrite EP, ED.
  destruct P as [|p P']; [reflexivity|].
  rewrite (classify_cons p P' D).
  destruct (sort_desc_cons p P') as (y & ys & E).
  rewrite E, classify_cons, <- E.
  rewrite (sort_desc_fixed (sort_desc_sorted (p :: P'))).
  rewrite (sort_desc_fixed (sort_desc_sorted D)); reflexivity.
Qed.

(** C7.  The result is a function of the text alone.  The sequences it
    returns are in descending order with equal amounts in document order:
    the positive amounts are the stable sort of the amounts scanned, and so
    are the discounts, unless no positive amount was found and both are
    empty.  Reconciling the returned pair again gives the same result. *)
Theorem analyze_deterministic_idempotent (content : text) :
  let r := analyze_invoice_text content in
  stable_sort_of (fst (scan_amounts content)) (positive_amounts r)
  /\ (stable_sort_of (snd (scan_amounts content)) (discounts r)
      \/ (fst (scan_amounts content) = [] /\ discounts r = []))
  /\ descending (discounts r)
  /\ classify (positive_amounts r) (discounts r) = r.
Proof.
  cbv zeta; unfold analyze_invoice_text.
  destruct (scan_amounts content) as [P D]; cbn [fst snd].
  destruct (classify_lists P D) as [EP ED].
  split; [rewrite EP; apply sort_desc_stable_sort|].
  split; [|split; [|apply classify_again]].
  - rewrite ED; destruct P; [right; auto|left].
    apply sort_desc_stable_sort.
  - rewrite ED; destruct P; [constructor | apply sort_desc_sorted].
Qed.

(** C8.  When the scan finds discounts and no positive amount, the result
    is NO_AMOUNT without a total, and both returned sequences are empty:
    the discounts found are dropped. *)
Theorem discounts_dropped_without_amount (content : text) :
  fst (scan_amounts content) = [] ->
  snd (scan_amounts content) <> [] ->
  analyze_invoice_text content
  = mkInvoiceData None (T "No amount found") STATUS_NO_AMOUNT [] [].
Proof.
  unfold analyze_invoice_text.
  destruct (scan_amounts content) as [P D]; cbn [fst snd].
  intros -> _; reflexivity.
Qed.

Lemma discounts_dropped_without_amount_witness :
  scan_amounts (T "-5,00 €") = ([], [5.00%Q])
  /\ analyze_invoice_text (T "-5,00 €")
     = mkInvoiceData None (T "No amount found") STATUS_NO_AMOUNT [] [].
Proof.
  split; [reflexivity|].
  apply discounts_dropped_without_amount; [reflexivity | discriminate].
Defined.

(** ** Extraction (lines 112-132) *)

(** C1, at the input where the code departs from it.  The numeral in the
    second convention is matched, but the normalisation always deletes the
    full stops and turns the commas into the decimal point: "1,234.56" is
    read as 1.23456, while "1.234,56" is read as 1234.56. *)
Theorem us_numeral_misread :
  analyze_invoice_text (T "1,234.56 €")
  = mkInvoiceData (Some 1.23456%Q) [] STATUS_OK [1.23456%Q] []
  /\ analyze_invoice_text (T "1.234,56 €")
     = mkInvoiceData (Some 1234.56%Q) [] STATUS_OK [1234.56%Q] []
  /\ clean (T "1,234.56") = T "1.23456"
  /\ clean (T "1.234,56") = T "1234.56".
Proof. repeat split; vm_compute; reflexivity. Qed.





(** ** The dialogue *)


Lemma run_AwaitChoice h D line rest :
  run h D AwaitChoice (line :: rest)
  = (let (st', out) := step h D AwaitChoice line in
     let (st'', out') := run h D st' rest in (st'', out ++ out')).
Proof. reflexivity. Qed.

Lemma run_ManualEntry h D line rest :
  run h D ManualEntry (line :: rest)
  = (let (st', out) := step h D ManualEntry line in
     let (st'', out') := run h D st' rest in (st'', out ++ out')).
Proof. reflexivity. Qed.



(** *** Selecting discounts *)

Lemma select_all_valid D cs acc :
  forallb (in_range D) cs = true ->
  select D cs acc = inl (acc ++ map (pick D) cs).
Proof.
  revert acc; induction cs as [|c cs IH]; intros acc H; simpl in *.
  - rewrite app_nil_r; reflexivity.
  - apply andb_true_iff in H; destruct H as [Hc Hcs].
    rewrite Hc, IH by exact Hcs.
    rewrite <- app_assoc; reflexivity.
Qed.

Lemma select_some_invalid D cs acc :
  forallb (in_range D) cs = false -> exists c, select D cs acc = inr c.
Proof.
  revert acc; induction cs as [|c cs IH]; intros acc H; simpl in *;
    [discriminate|].
  destruct (in_range D c); [apply IH, H | eauto].
Qed.

Lemma split_on_cons d s : exists p ps, split_on d s = p :: ps.
Proof.
  destruct s as [|c t]; simpl; [eauto|].
  destruct (Ascii.eqb c d); [eauto|].
  destruct (split_on d t); eauto.
Qed.

Lemma parse_choices_cons s cs :
  parse_choices s = Some cs -> exists c cs', cs = c :: cs'.
Proof.
  unfold parse_choices.
  destruct (split_on_cons "," s) as (p & ps & ->); simpl.
  destruct (int_of_string (strip p)) as [c|]; [|discriminate].
  destruct (sequence _) as [cs'|]; [|discriminate].
  intros E; injection E; intros <-; eauto.
Qed.








(** ** Duplicate detection (lines 22-35) *)

Lemma lookup_in h d fs : lookup h d = Some fs -> In (h, fs) d.
Proof.
  induction d as [|[k fs'] d' IH]; simpl; [discriminate|].
  destruct (text_eqb k h) eqn:E.
  - apply text_eqb_eq in E; subst k.
    intros E'; injection E'; intros ->; left; reflexivity.
  - intros H; right; apply IH, H.
Qed.

Lemma lookup_dict_append h k f d :
  lookup h (dict_append k f d)
  = if text_eqb k h
    then Some (match lookup k d with Some fs => fs ++ [f] | None => [f] end)
    else lookup h d.
Proof.
  induction d as [|[k' fs] d' IH]; simpl.
  - destruct (text_eqb k h); reflexivity.
  - destruct (text_eqb k' k) eqn:E; simpl.
    + apply text_eqb_eq in E; subst k'.
      destruct (text_eqb k h); reflexivity.
    + rewrite IH; destruct (text_eqb k' h) eqn:E'; [|reflexivity].
      apply text_eqb_eq in E'; subst k'.
      destruct (text_eqb k h) eqn:E''; [|reflexivity].
      apply text_eqb_eq in E''; subst k.
      rewrite text_eqb_refl in E; discriminate.
Qed.

Section DuplicatesFacts.

Variable sha256_hexdigest : text -> text.

Lemma same_digest_app h l1 l2 :
  same_digest sha256_hexdigest h (l1 ++ l2) = same_digest sha256_hexdigest h l1 ++ same_digest sha256_hexdigest h l2.
Proof. unfold same_digest; rewrite filter_app, map_app; reflexivity. Qed.

(** The dictionary holds, under each digest, the files that have it. *)
Lemma build_hashes_lookup dir h :
  lookup h (build_hashes sha256_hexdigest dir) = group_at sha256_hexdigest h dir.
Proof.
  unfold build_hashes.
  set (body := fun (hashes : dict) (entry : text * text) =>
                 let '(filename, content) := entry in
                 if endswith (T ".txt") filename
                 then dict_append (sha256_hexdigest content) filename hashes
                 else hashes).
  assert (G : forall l pre d,
             (forall h, lookup h d = group_at sha256_hexdigest h pre) ->
             forall h, lookup h (fold_left body l d) = group_at sha256_hexdigest h (pre ++ l)).
  { induction l as [|[f c] l IH]; intros pre d Hd h'; cbn [fold_left].
    - rewrite app_nil_r; apply Hd.
    - replace (pre ++ (f, c) :: l) with ((pre ++ [(f, c)]) ++ l)
        by (rewrite <- app_assoc; reflexivity).
      apply IH; clear h'; intros h'.
      unfold group_at; rewrite same_digest_app.
      unfold same_digest at 2, body; cbn [filter fst snd].
      destruct (endswith (T ".txt") f); cbn [andb].
      + rewrite lookup_dict_append, Hd.
        destruct (text_eqb (sha256_hexdigest c) h') eqn:E; cbn [map fst].
        * apply text_eqb_eq in E; subst h'; unfold group_at.
          destruct (same_digest sha256_hexdigest (sha256_hexdigest c) pre); reflexivity.
        * rewrite app_nil_r; apply Hd.
      + cbn [map]; rewrite app_nil_r; apply Hd. }
  apply (G dir [] []); reflexivity.
Qed.


End DuplicatesFacts.


(** * Further properties *)

(** ** Totals found without the operator *)







(** ** Texts without amounts *)

Lemma bind_all_none {A B} (p : parser A) (f : A -> parser B) s :
  (forall a r, In (a, r) (p s) -> f a r = []) -> bind p f s = [].
Proof.
  unfold bind; intros H; induction (p s) as [|[a r] l IH]; [reflexivity|].
  simpl; rewrite (H a r) by (left; reflexivity).
  apply IH; intros a' r' Hin; apply H; right; exact Hin.
Qed.

Lemma suffix_Forall {A} (P : ascii -> Prop) (p : parser A) s a r :
  consuming 0 p -> Forall P s -> In (a, r) (p s) -> Forall P r.
Proof.
  intros Hp Hs Hin; destruct (Hp s a r Hin) as (m & -> & _).
  apply Forall_app in Hs; apply Hs.
Qed.

Lemma consuming_spaces : consuming 0 (star (sat is_space)).
Proof.
  apply ReFacts.consuming_star, ReFacts.consuming_weaken with 1;
    [lia | apply ReFacts.consuming_sat].
Qed.


Lemma consuming_sign_marker : consuming 0 sign_marker.
Proof.
  apply ReFacts.consuming_opt, (@ReFacts.consuming_bind _ _ 0 0);
    [apply ReFacts.consuming_weaken with 1;
     [lia | apply ReFacts.consuming_sat]|].
  intros c; apply (@ReFacts.consuming_bind _ _ 0 0);
    [exact consuming_spaces | intros; apply ReFacts.consuming_ret].
Qed.

Lemma consuming_number : consuming 0 number.
Proof.
  assert (G : forall n, consuming 0 (group_of n)).
  { intros n; apply (@ReFacts.consuming_bind _ _ 0 0);
      [apply ReFacts.consuming_weaken with 1;
       [lia | apply ReFacts.consuming_sat]|].
    intros c; apply (@ReFacts.consuming_bind _ _ 0 0);
      [|intros; apply ReFacts.consuming_ret].
    apply ReFacts.consuming_weaken with (n * 0); [lia|].
    apply ReFacts.consuming_rep, ReFacts.consuming_weaken with 1;
      [lia | apply ReFacts.consuming_sat]. }
  apply (@ReFacts.consuming_bind _ _ 0 0).
  - apply ReFacts.consuming_weaken with (1 * 1); [lia|].
    apply ReFacts.consuming_rep_range, ReFacts.consuming_sat.
  - intros ds; apply (@ReFacts.consuming_bind _ _ 0 0);
      [apply ReFacts.consuming_star, G|].
    intros gs; apply (@ReFacts.consuming_bind _ _ 0 0); [apply G|].
    intros g; apply ReFacts.consuming_ret.
Qed.



Lemma currency_needs_start r :
  match r with c :: _ => currency_start c = false | [] => True end ->
  currency r = [].
Proof.
  destruct r as [|c t]; [reflexivity|]; intros H.
  destruct c as [[] [] [] [] [] [] [] []]; try discriminate H; reflexivity.
Qed.

Lemma currency_start_Forall r :
  Forall (fun c => currency_start c = false) r ->
  match r with c :: _ => currency_start c = false | [] => True end.
Proof. destruct 1; auto. Qed.


Lemma pattern_needs_currency s :
  Forall (fun c => currency_start c = false) s -> pattern s = [].
Proof.
  intros Hs; unfold pattern.
  apply bind_all_none; intros sg r Hr.
  apply (@suffix_Forall _ _ _ _ _ _ consuming_sign_marker Hs) in Hr.
  unfold alt; replace (bind currency _ r) with (@nil (groups * text)).
  2:{ symmetry.
      apply ReFacts.bind_none, currency_needs_start, currency_start_Forall, Hr. }
  cbn [app].
  - apply bind_all_none; intros n r1 H1.
    apply (@suffix_Forall _ _ _ _ _ _ consuming_number Hr) in H1.
    apply bind_all_none; intros y r2 H2.
    apply (@suffix_Forall _ _ _ _ _ _ consuming_spaces H1) in H2.
    apply ReFacts.bind_none, currency_needs_start, currency_start_Forall, H2.
Qed.

Lemma finditer_nothing (P : ascii -> Prop) s :
  (forall r, Forall P r -> pattern r = []) ->
  Forall P s -> finditer s = [].
Proof.
  intros HP Hs; unfold finditer; generalize 0.
  induction Hs as [|c t Hc Ht IH]; intros k; [reflexivity|].
  cbn [finditer_from]; destruct k as [|k]; [|apply IH].
  rewrite (HP (c :: t)) by (constructor; assumption); apply IH.
Qed.

Lemma analyze_nothing content :
  finditer content = [] -> analyze_invoice_text content = no_amount_found.
Proof.
  intros E; unfold analyze_invoice_text, scan_amounts; rewrite E; reflexivity.
Qed.



(** X3.  A text in which no currency marker can begin -- no euro sign and
    no letter E in either case -- has no match, whatever numbers it holds:
    amounts without a currency marker are not read. *)
Theorem no_currency_no_amount (content : text) :
  Forall (fun c => currency_start c = false) content ->
  finditer content = []
  /\ analyze_invoice_text content = no_amount_found.
Proof.
  intros H.
  assert (E : finditer content = [])
    by (apply (@finditer_nothing _ content pattern_needs_currency H)).
  split; [exact E | apply analyze_nothing, E].
Qed.

Lemma no_currency_no_amount_witness :
  analyze_invoice_text (T "Total 1.234,56 and -10,00 USD")
  = no_amount_found.
Proof.
  apply (@no_currency_no_amount (T "Total 1.234,56 and -10,00 USD")).
  repeat constructor.
Defined.

(** ** Signed and unsigned tokens *)

Lemma first_opt {A} (p : parser A) s a r :
  first_is p s a r -> first_is (opt p) s (Some a) r.
Proof.
  intros [l E]; unfold first_is, opt; rewrite E; eexists; reflexivity.
Qed.

Lemma first_spaces ws t :
  Forall (fun c => is_space c = true) ws -> no_space_ahead t ->
  first_is (star (sat is_space)) (ws ++ t) ws t.
Proof.
  intros Hws Ht; unfold star.
  assert (G : forall n, length ws <= n ->
              first_is (star_fuel n (sat is_space)) (ws ++ t) ws t).
  { induction Hws as [|c ws Hc _ IH]; intros n Hn.
    - destruct n as [|n]; [eexists; reflexivity|].
      unfold first_is; cbn [star_fuel app].
      rewrite (ReFacts.sat_none is_space t Ht); eexists; reflexivity.
    - destruct n as [|n]; [simpl in Hn; lia|].
      destruct (IH n) as [l' E']; [simpl in Hn; lia|].
      unfold first_is; cbn [star_fuel app sat]; rewrite Hc.
      cbn [flat_map fst snd].
      replace (length (ws ++ t) <? length (c :: ws ++ t)) with true
        by (symmetry; apply Nat.ltb_lt; simpl; lia).
      rewrite E'; eexists; reflexivity. }
  apply G; rewrite length_app; lia.
Qed.

Lemma digit_not_space d : digit d -> is_space d = false.
Proof.
  unfold digit; intros Hd.
  destruct d as [[] [] [] [] [] [] [] []]; try discriminate Hd; reflexivity.
Qed.

Lemma first_sign_marker ws t :
  Forall (fun c => is_space c = true) ws -> no_space_ahead t ->
  first_is sign_marker ("-"%char :: ws ++ t) (Some ("-"%char :: ws)) t.
Proof.
  intros Hws Ht; unfold sign_marker; apply first_opt.
  eapply ReFacts.first_bind; [apply ReFacts.first_sat; reflexivity|].
  eapply ReFacts.first_bind;
    [apply first_spaces; assumption | apply ReFacts.first_ret].
Qed.

Lemma first_number_then_currency (sg : option text) n rest :
  numeral n ->
  first_is
    (alt (bind currency (fun _ =>
          bind (star (sat is_space)) (fun _ =>
          bind number (fun n => ret ((sg, Some n, None) : groups)))))
         (bind number (fun n =>
          bind (star (sat is_space)) (fun _ =>
          bind currency (fun _ => ret ((sg, None, Some n) : groups))))))
    (n ++ euro ++ rest) (sg, None, Some n) rest.
Proof.
  intros Hn; destruct (numeral_head Hn) as (d & n' & E & Hd); subst n.
  apply ReFacts.first_alt_r;
    [apply ReFacts.bind_none, (currency_not_digit _ Hd)|].
  eapply ReFacts.first_bind;
    [apply (@first_number (d :: n') (euro ++ rest) Hn); reflexivity|].
  eapply ReFacts.first_bind; [eexists; reflexivity|].
  eapply ReFacts.first_bind; [eexists; reflexivity | apply ReFacts.first_ret].
Qed.

Lemma finditer_signed ws n rest :
  Forall (fun c => is_space c = true) ws -> numeral n ->
  finditer ("-"%char :: ws ++ n ++ euro ++ rest)
  = (Some ("-"%char :: ws), None, Some n) :: finditer rest.
Proof.
  intros Hws Hn.
  assert (F : first_is pattern ("-"%char :: ws ++ n ++ euro ++ rest)
                (Some ("-"%char :: ws), None, Some n) rest).
  { unfold pattern; eapply ReFacts.first_bind.
    - apply first_sign_marker; [exact Hws|].
      destruct (numeral_head Hn) as (d & n' & -> & Hd).
      apply digit_not_space, Hd.
    - apply first_number_then_currency, Hn. }
  destruct F as [l E]; apply (finditer_match _ E).
Qed.

Lemma loop_body_num_after sg n :
  loop_body ([], []) (sg, None, Some n)
  = match float_of_string (clean n) with
    | Some amount => if truthy sg then ([], [amount]) else ([amount], [])
    | None => ([], [])
    end.
Proof. reflexivity. Qed.

Lemma scan_amounts_unsigned n :
  numeral n ->
  scan_amounts (n ++ euro)
  = (match float_of_string (clean n) with
     | Some amount => [amount]
     | None => []
     end, []).
Proof.
  intros Hn; unfold scan_amounts.
  rewrite <- (app_nil_r euro), (finditer_numeral [] Hn).
  cbn [fold_left finditer finditer_from].
  rewrite loop_body_num_after; cbn [truthy].
  destruct (float_of_string (clean n)); reflexivity.
Qed.

(** X4.  The sign decides the sequence.  A numeral before a euro sign that
    comes after a minus sign and any white space is matched together with
    the sign, and what is read from it goes to the discounts; without the
    sign it goes to the positive amounts. *)
Theorem sign_decides_sequence (ws n rest : text) :
  Forall (fun c => is_space c = true) ws ->
  numeral n ->
  finditer ("-"%char :: ws ++ n ++ euro ++ rest)
  = (Some ("-"%char :: ws), None, Some n) :: finditer rest
  /\ scan_amounts ("-"%char :: ws ++ n ++ euro)
     = ([], match float_of_string (clean n) with
            | Some amount => [amount]
            | None => []
            end)
  /\ scan_amounts (n ++ euro)
     = (match float_of_string (clean n) with
        | Some amount => [amount]
        | None => []
        end, []).
Proof.
  intros Hws Hn; split; [apply finditer_signed; assumption|]; split.
  - unfold scan_amounts.
    rewrite <- (app_nil_r euro), (finditer_signed [] Hws Hn).
    cbn [fold_left finditer finditer_from].
    rewrite loop_body_num_after; cbn [truthy].
    destruct (float_of_string (clean n)); reflexivity.
  - apply scan_amounts_unsigned, Hn.
Qed.

Lemma sign_decides_sequence_witness :
  scan_amounts (T "- 12,50€") = ([], [12.50%Q]).
Proof.
  assert (Hn : numeral (T "12,50")).
  { exists (T "12"), [], (T ",50"); split; [reflexivity|].
    split; [simpl; lia|]; split; [repeat constructor|].
    split; [constructor|].
    exists ","%char, (T "50"); repeat constructor. }
  assert (Hws : Forall (fun c => is_space c = true) (T " "))
    by repeat constructor.
  exact (proj1 (proj2 (@sign_decides_sequence (T " ") (T "12,50") [] Hws Hn))).
Defined.

(** ** Amounts in whole hundredths *)





(** ** The dialogue, further *)

Lemma select_inl_nil D cs : select D cs [] = inl [] -> cs = [].
Proof.
  destruct (forallb (in_range D) cs) eqn:Hv.
  - rewrite (select_all_valid _ _ [] Hv); cbn [app].
    destruct cs; [reflexivity | discriminate].
  - destruct (select_some_invalid _ _ [] Hv) as (c & ->); discriminate.
Qed.

Lemma step_never_no_valid h D st line :
  ~ In no_valid_message (snd (step h D st line)).
Proof.
  unfold step; destruct st as [| |t n]; [| |intros []].
  - destruct (text_eqb _ (T "E")); [intros []|].
    destruct (text_eqb _ (T "S")); [intros []|].
    destruct (parse_choices _) as [cs|] eqn:Hp;
      [|intros [H|[]]; discriminate H].
    destruct (select D cs []) as [[|x sel]|c] eqn:Hs.
    + apply select_inl_nil in Hs; subst cs.
      destruct (parse_choices_cons _ Hp) as (c & cs' & E); discriminate E.
    + intros [].
    + intros [H|[]]; discriminate H.
  - destruct (float_of_string line); [intros [] | intros [H|[]]].
    discriminate H.
Qed.

Lemma run_never_no_valid h D st inputs :
  ~ In no_valid_message (snd (run h D st inputs)).
Proof.
  revert st; induction inputs as [|line rest IH]; intros st.
  - destruct st; intros [].
  - destruct st as [| |t n]; [| |intros []].
    + rewrite run_AwaitChoice.
      pose proof (step_never_no_valid h D AwaitChoice line) as Hs.
      destruct (step h D AwaitChoice line) as [st' out]; cbn [snd] in Hs.
      specialize (IH st'); destruct (run h D st' rest) as [st'' out'].
      cbn [snd] in *; intros H; apply in_app_or in H; tauto.
    + rewrite run_ManualEntry.
      pose proof (step_never_no_valid h D ManualEntry line) as Hs.
      destruct (step h D ManualEntry line) as [st' out]; cbn [snd] in Hs.
      specialize (IH st'); destruct (run h D st' rest) as [st'' out'].
      cbn [snd] in *; intros H; apply in_app_or in H; tauto.
Qed.

(** X6.  The branch of line 225 is dead: whatever the operator types, the
    resolver never prints "No valid discounts selected.", because a line
    that reads as a list of integers holds at least one. *)
Theorem no_valid_message_never_printed (P D : list Q) (inputs : list text) :
  ~ In no_valid_message (snd (interactive_discount_resolver P D inputs)).
Proof.
  unfold interactive_discount_resolver; destruct P as [|h others];
    [intros []|].
  pose proof (run_never_no_valid h D AwaitChoice inputs) as H.
  destruct (run h D AwaitChoice inputs) as [[| |t n] out]; exact H.
Qed.



(** ** Duplicate detection, further *)

Lemma in_keys_dict_append x k f d :
  In x (map fst (dict_append k f d)) -> x = k \/ In x (map fst d).
Proof.
  induction d as [|[k' fs] d' IH]; simpl.
  - intros [<-|[]]; auto.
  - destruct (text_eqb k' k); simpl; [tauto|].
    intros [<-|H]; [auto|]; destruct (IH H); auto.
Qed.

Lemma dict_append_NoDup k f d :
  NoDup (map fst d) -> NoDup (map fst (dict_append k f d)).
Proof.
  induction d as [|[k' fs] d' IH]; simpl; intros H.
  - repeat constructor; intros [].
  - inversion H as [|? ? Hk' Hd']; subst.
    destruct (text_eqb k' k) eqn:E; simpl; [constructor; assumption|].
    constructor; [|apply IH, Hd'].
    intros Hin; apply in_keys_dict_append in Hin; destruct Hin as [->|Hin];
      [rewrite text_eqb_refl in E; discriminate | contradiction].
Qed.

Lemma dict_append_names k f d :
  Permutation (grouped_names (dict_append k f d)) (grouped_names d ++ [f]).
Proof.
  unfold grouped_names; induction d as [|[k' fs] d' IH]; simpl; auto.
  destruct (text_eqb k' k); simpl.
  - rewrite <- !app_assoc; apply Permutation_app_head, Permutation_app_comm.
  - rewrite IH, app_assoc; reflexivity.
Qed.

Lemma in_lookup h fs d :
  NoDup (map fst d) -> In (h, fs) d -> lookup h d = Some fs.
Proof.
  induction d as [|[k fs'] d' IH]; simpl; intros Hnd Hin; [destruct Hin|].
  destruct Hin as [E|Hin].
  - injection E; intros; subst; rewrite text_eqb_refl; reflexivity.
  - inversion Hnd as [|? ? Hk Hd']; subst.
    destruct (text_eqb k h) eqn:E; [|apply IH; assumption].
    apply text_eqb_eq in E; subst k; exfalso; apply Hk.
    apply (in_map fst) in Hin; exact Hin.
Qed.

Lemma filter_one {A} (p : A -> bool) l :
  1 <= length (filter p l) ->
  exists l1 x l2, l = l1 ++ x :: l2 /\ p x = true.
Proof.
  induction l as [|a l IH]; simpl; [lia|].
  destruct (p a) eqn:E; intros H.
  - exists [], a, l; auto.
  - destruct (IH H) as (l1 & x & l2 & -> & Hx).
    exists (a :: l1), x, l2; auto.
Qed.

Lemma filter_two {A} (p : A -> bool) l :
  2 <= length (filter p l) ->
  exists l1 x l2 y l3,
    l = l1 ++ x :: l2 ++ y :: l3 /\ p x = true /\ p y = true.
Proof.
  induction l as [|a l IH]; simpl; [lia|].
  destruct (p a) eqn:E; simpl; intros H.
  - destruct (@filter_one _ p l) as (l2 & y & l3 & -> & Hy); [lia|].
    exists [], a, l2, y, l3; auto.
  - destruct (IH H) as (l1 & x & l2 & y & l3 & -> & Hx & Hy).
    exists (a :: l1), x, l2, y, l3; auto.
Qed.

Section DuplicatesFurther.

Variable sha256_hexdigest : text -> text.

Lemma build_hashes_invariant dir :
  NoDup (map fst (build_hashes sha256_hexdigest dir))
  /\ Permutation (grouped_names (build_hashes sha256_hexdigest dir))
       (map fst (filter is_txt dir)).
Proof.
  unfold build_hashes.
  set (body := fun (hashes : dict) (entry : text * text) =>
                 let '(filename, content) := entry in
                 if endswith (T ".txt") filename
                 then dict_append (sha256_hexdigest content) filename hashes
                 else hashes).
  assert (G : forall l pre d,
             NoDup (map fst d)
             /\ Permutation (grouped_names d) (map fst (filter is_txt pre)) ->
             NoDup (map fst (fold_left body l d))
             /\ Permutation (grouped_names (fold_left body l d))
                  (map fst (filter is_txt (pre ++ l)))).
  { induction l as [|[f c] l IH]; intros pre d [Hnd Hp]; cbn [fold_left].
    - rewrite app_nil_r; auto.
    - replace (pre ++ (f, c) :: l) with ((pre ++ [(f, c)]) ++ l)
        by (rewrite <- app_assoc; reflexivity).
      apply IH; rewrite filter_app, map_app.
      unfold body; cbn [filter].
      change (is_txt (f, c)) with (endswith (T ".txt") f).
      destruct (endswith (T ".txt") f); cbn [map fst].
      + split; [apply dict_append_NoDup, Hnd|].
        rewrite dict_append_names; apply Permutation_app_tail, Hp.
      + rewrite app_nil_r; auto. }
  apply (G dir [] []); split; [constructor | reflexivity].
Qed.

Lemma build_hashes_group h fs dir :
  In (h, fs) (build_hashes sha256_hexdigest dir) ->
  fs = same_digest sha256_hexdigest h dir /\ fs <> [].
Proof.
  intros Hin; destruct (build_hashes_invariant dir) as [Hnd _].
  apply (@in_lookup _ _ _ Hnd) in Hin.
  rewrite build_hashes_lookup in Hin; unfold group_at in Hin.
  destruct (same_digest sha256_hexdigest h dir); [discriminate|].
  injection Hin; intros <-; split; [reflexivity | discriminate].
Qed.

Lemma flag_iff_shared_digest (dir : list (text * text)) :
  detect_and_handle_duplicates sha256_hexdigest dir = true
  <-> exists l1 f1 c1 l2 f2 c2 l3,
        dir = l1 ++ (f1, c1) :: l2 ++ (f2, c2) :: l3
        /\ endswith (T ".txt") f1 = true
        /\ endswith (T ".txt") f2 = true
        /\ sha256_hexdigest c1 = sha256_hexdigest c2.
Proof.
  unfold detect_and_handle_duplicates; rewrite existsb_exists; split.
  - intros ([h fs] & Hin & Hl); cbn [snd] in Hl; apply Nat.ltb_lt in Hl.
    destruct (@build_hashes_group _ _ _ Hin) as [-> _].
    unfold same_digest in Hl; rewrite length_map in Hl.
    destruct (@filter_two _ _ _ Hl)
      as (l1 & [f1 c1] & l2 & [f2 c2] & l3 & E & H1 & H2).
    cbn [fst snd] in H1, H2; apply andb_true_iff in H1, H2.
    destruct H1 as [T1 D1], H2 as [T2 D2].
    apply text_eqb_eq in D1, D2.
    exists l1, f1, c1, l2, f2, c2, l3; repeat split; auto; congruence.
  - intros (l1 & f1 & c1 & l2 & f2 & c2 & l3 & -> & T1 & T2 & E).
    set (dir := l1 ++ (f1, c1) :: l2 ++ (f2, c2) :: l3).
    set (h := sha256_hexdigest c1).
    assert (S : same_digest sha256_hexdigest h dir
                = same_digest sha256_hexdigest h l1
                    ++ f1 :: same_digest sha256_hexdigest h l2
                    ++ f2 :: same_digest sha256_hexdigest h l3).
    { unfold dir; rewrite same_digest_app.
      change ((f1, c1) :: l2 ++ (f2, c2) :: l3)
        with ([(f1, c1)] ++ l2 ++ [(f2, c2)] ++ l3).
      rewrite !same_digest_app; unfold same_digest at 2 4.
      cbn [filter fst snd]; rewrite <- E; fold h.
      rewrite T1, T2, text_eqb_refl; reflexivity. }
    exists (h, same_digest sha256_hexdigest h dir); split.
    + apply lookup_in; rewrite build_hashes_lookup; unfold group_at.
      rewrite S; destruct (same_digest sha256_hexdigest h l1); reflexivity.
    + apply Nat.ltb_lt; cbn [snd]; rewrite S, length_app; simpl.
      rewrite length_app; simpl; lia.
Qed.


(** X9.  The dictionary partitions the text files by digest: its keys are
    pairwise distinct, the group under a key is never empty and holds, in
    directory order, exactly the names of the text files with that digest,
    and all groups together hold every text file once.  A file whose name
    does not end in ".txt" is in no group. *)
Theorem groups_partition_text_files (dir : list (text * text)) :
  NoDup (map fst (build_hashes sha256_hexdigest dir))
  /\ Forall (fun kv => snd kv = same_digest sha256_hexdigest (fst kv) dir
                       /\ snd kv <> [])
       (build_hashes sha256_hexdigest dir)
  /\ Permutation (grouped_names (build_hashes sha256_hexdigest dir))
       (map fst (filter is_txt dir)).
Proof.
  destruct (build_hashes_invariant dir) as [Hnd Hp].
  split; [exact Hnd|]; split; [|exact Hp].
  apply Forall_forall; intros [h fs] Hin; apply build_hashes_group, Hin.
Qed.

End DuplicatesFurther.

(** ** File names *)

Lemma rfind_from_app c a b i found :
  rfind_from c (a ++ b) i found
  = rfind_from c b (i + Z.of_nat (length a)) (rfind_from c a i found).
Proof.
  revert i found; induction a as [|x a IH]; intros i found.
  - simpl; f_equal; lia.
  - cbn [app rfind_from length]; rewrite IH; f_equal; lia.
Qed.

Lemma rfind_from_absent c s i found :
  ~ In c s -> rfind_from c s i found = found.
Proof.
  revert i found; induction s as [|x s IH]; intros i found H; [reflexivity|].
  cbn [rfind_from]; destruct (Ascii.eqb x c) eqn:E.
  - apply Ascii.eqb_eq in E; subst x; exfalso; apply H; left; reflexivity.
  - apply IH; intros Hin; apply H; right; exact Hin.
Qed.

Lemma rfind_last c a b :
  ~ In c b -> rfind c (a ++ c :: b) = Z.of_nat (length a).
Proof.
  intros H; unfold rfind; rewrite rfind_from_app; cbn [rfind_from].
  rewrite Ascii.eqb_refl, rfind_from_absent by exact H; lia.
Qed.

Lemma rfind_absent c s : ~ In c s -> rfind c s = (-1)%Z.
Proof. apply rfind_from_absent. Qed.

(** A name with a root that is not made of full stops only, a full stop and
    an extension without full stop splits there. *)
Lemma splitext_root_ext root ext :
  ~ In "/"%char root -> ~ In "/"%char ext -> ~ In "."%char ext ->
  existsb (fun c => negb (Ascii.eqb c ".")) root = true ->
  splitext (root ++ "."%char :: ext) = (root, "."%char :: ext).
Proof.
  intros Hr He Hd Hx; unfold splitext.
  rewrite (@rfind_last _ _ _ Hd), rfind_absent.
  2:{ intros H; apply in_app_or in H; destruct H as [H|[H|H]];
        [auto | discriminate H | auto]. }
  replace (-1 <? Z.of_nat (length root))%Z with true
    by (symmetry; apply Z.ltb_lt; lia).
  unfold slice; replace (Z.to_nat (-1 + 1)) with 0 by lia.
  replace (Z.to_nat (Z.of_nat (length root) - (-1 + 1))) with (length root)
    by lia.
  rewrite Nat2Z.id; cbn [skipn].
  rewrite firstn_app, Nat.sub_diag, firstn_all; cbn [firstn].
  rewrite app_nil_r, Hx; cbn [andb].
  rewrite skipn_app, Nat.sub_diag, skipn_all; reflexivity.
Qed.

Lemma starts_with_app p s : starts_with p (p ++ s) = true.
Proof.
  induction p as [|c p IH]; [reflexivity|].
  cbn [app starts_with]; rewrite Ascii.eqb_refl; exact IH.
Qed.

Lemma endswith_app a s : endswith s (a ++ s) = true.
Proof. unfold endswith; rewrite rev_app_distr; apply starts_with_app. Qed.

Lemma lower_pdf_chars ext :
  lower ext = T "pdf" ->
  ~ In "/"%char ext /\ ~ In "."%char ext.
Proof.
  destruct ext as [|c1 [|c2 [|c3 [|c4 ext]]]]; try discriminate.
  intros E; injection E; intros E3 E2 E1.
  assert (G : forall c x, lower_char c = x ->
                x <> lower_char "/" -> x <> lower_char "." ->
                c <> "/"%char /\ c <> "."%char).
  { intros c x <- H1 H2; split; intros ->; [apply H1 | apply H2];
      reflexivity. }
  destruct (G _ _ E1) as [A1 B1]; [discriminate..|].
  destruct (G _ _ E2) as [A2 B2]; [discriminate..|].
  destruct (G _ _ E3) as [A3 B3]; [discriminate..|].
  split; intros [H|[H|[H|[]]]]; congruence.
Qed.

(** X10.  From a PDF to its text file and back.  A file name made of a root
    without "/" that is not only full stops, a full stop, and "pdf" in any
    mix of cases is taken by the converter; its text file is the root with
    ".txt", which the later passes take; and the PDF looked for beside that
    text file is the root with ".pdf": the original name exactly when its
    extension is in lower case. *)
Theorem pdf_name_round_trip (root ext : text) :
  ~ In "/"%char root ->
  existsb (fun c => negb (Ascii.eqb c ".")) root = true ->
  lower ext = T "pdf" ->
  is_pdf (root ++ "."%char :: ext) = true
  /\ txt_filename (root ++ "."%char :: ext) = root ++ T ".txt"
  /\ endswith (T ".txt") (txt_filename (root ++ "."%char :: ext)) = true
  /\ pdf_name (txt_filename (root ++ "."%char :: ext)) = root ++ T ".pdf"
  /\ (pdf_name (txt_filename (root ++ "."%char :: ext))
      = root ++ "."%char :: ext <-> ext = T "pdf").
Proof.
  intros Hr Hx He; destruct (@lower_pdf_chars _ He) as [Hs Hd].
  assert (E1 : txt_filename (root ++ "."%char :: ext) = root ++ T ".txt").
  { unfold txt_filename; rewrite splitext_root_ext; auto. }
  assert (E2 : pdf_name (root ++ T ".txt") = root ++ T ".pdf").
  { unfold pdf_name; change (T ".txt") with ("."%char :: T "txt").
    rewrite splitext_root_ext; auto;
      intros [H|[H|[H|[]]]]; discriminate H. }
  split; [|rewrite E1, E2; repeat split; auto].
  - unfold is_pdf, lower; rewrite map_app; cbn [map].
    change (map lower_char ext) with (lower ext); rewrite He.
    change (lower_char "." :: T "pdf") with (T ".pdf"); apply endswith_app.
  - apply endswith_app.
  - intros E; apply app_inv_head in E; injection E; auto.
  - intros ->; reflexivity.
Qed.

Lemma pdf_name_round_trip_witness :
  txt_filename (T "invoice.2024.PDF") = T "invoice.2024.txt"
  /\ pdf_name (txt_filename (T "invoice.2024.PDF")) = T "invoice.2024.pdf".
Proof.
  destruct (@pdf_name_round_trip (T "invoice.2024") (T "PDF"))
    as (_ & E1 & _ & E2 & _);
    [intros H; repeat (destruct H as [H|H]; [discriminate H|]); exact H
    | reflexivity | reflexivity |].
  split; [exact E1 | exact E2].
Defined.

(** ** The dialogue about duplicates *)

Lemma path_exists_In fs p : path_exists fs p = true <-> In p fs.
Proof.
  unfold path_exists; rewrite existsb_exists; split.
  - intros (q & Hq & E); apply text_eqb_eq in E; subst q; exact Hq.
  - intros H; exists p; split; [exact H | apply text_eqb_refl].
Qed.

Lemma path_remove_incl fs p : incl (path_remove fs p) fs.
Proof. intros q Hq; apply filter_In in Hq; apply Hq. Qed.

Lemma path_remove_length fs p :
  NoDup fs -> In p fs -> S (length (path_remove fs p)) = length fs.
Proof.
  unfold path_remove; induction 1 as [|q fs Hq Hnd IH]; intros Hin;
    [destruct Hin|].
  cbn [filter length]; destruct (text_eqb p q) eqn:E; cbn [negb length].
  - apply text_eqb_eq in E; subst q; f_equal.
    rewrite forallb_filter_id; [reflexivity|].
    apply forallb_forall; intros x Hx.
    destruct (text_eqb p x) eqn:E'; [|reflexivity].
    apply text_eqb_eq in E'; subst x; contradiction.
  - f_equal; apply IH; destruct Hin as [->|Hin]; [|exact Hin].
    rewrite text_eqb_refl in E; discriminate.
Qed.

Lemma delete_dialogue_effect (pdf_dir : text) (filenames fs : list text)
    (inputs : list text) :
  match delete_dialogue pdf_dir filenames fs inputs with
  | Answered fs' rest out =>
      at_most_one_removed pdf_dir filenames fs fs'
      /\ exists used, inputs = used ++ rest /\ used <> []
  | InputEnded _ => True
  end.
Proof.
  assert (G : forall n inputs, length inputs <= n ->
              match delete_dialogue pdf_dir filenames fs inputs with
              | Answered fs' rest out =>
                  at_most_one_removed pdf_dir filenames fs fs'
                  /\ exists used, inputs = used ++ rest /\ used <> []
              | InputEnded _ => True
              end).
  { induction n as [|n IH]; intros [|line rest] Hl; simpl in Hl;
      try exact I; try lia.
    assert (later : forall used r out,
               used <> [] -> length r <= n ->
               line :: rest = used ++ r ->
               match printed_before out
                       (delete_dialogue pdf_dir filenames fs r) with
               | Answered fs' rest0 _ =>
                   at_most_one_removed pdf_dir filenames fs fs'
                   /\ exists used0, line :: rest = used0 ++ rest0
                                    /\ used0 <> []
               | InputEnded _ => True
               end).
    { intros used r out Hu Hr E; specialize (IH r Hr).
      destruct (delete_dialogue pdf_dir filenames fs r) as [fs' r' o|o];
        cbn [printed_before]; [|exact I].
      destruct IH as [H1 (u & -> & Hu')]; split; [exact H1|].
      exists (used ++ u); rewrite E, app_assoc; split; [reflexivity|].
      intros F; apply app_eq_nil in F; tauto. }
    cbn [delete_dialogue].
    destruct (text_eqb (lower line) (T "y") || text_eqb (lower line) (T "yes")).
    - destruct rest as [|line' rest']; [exact I|].
      assert (two : line :: line' :: rest' = [line; line'] ++ rest')
        by reflexivity.
      destruct (int_of_string line') as [k|].
      + destruct ((1 <=? k) && (k <=? Z.of_nat (length filenames)))%Z eqn:Hk.
        * apply andb_true_iff in Hk; destruct Hk as [K1 K2].
          apply Z.leb_le in K1, K2.
          destruct (path_exists fs _) eqn:Hx.
          -- split; [|exists [line; line']; split; [exact two|discriminate]].
             right; eexists; split; [|split; [exact Hx | reflexivity]].
             apply nth_In; lia.
          -- split; [left; reflexivity|].
             exists [line; line']; split; [exact two|discriminate].
        * destruct (k =? Z.of_nat (length filenames) + 1)%Z.
          -- split; [left; reflexivity|].
             exists [line; line']; split; [exact two|discriminate].
          -- apply (later [line; line']);
               [discriminate | simpl in Hl; lia | exact two].
      + apply (later [line; line']);
          [discriminate | simpl in Hl; lia | exact two].
    - destruct (text_eqb (lower line) (T "n") || text_eqb (lower line) (T "no")).
      + split; [left; reflexivity|].
        exists [line]; split; [reflexivity | discriminate].
      + generalize (later [line] rest [] ltac:(discriminate) ltac:(lia)
                      eq_refl).
        destruct (delete_dialogue pdf_dir filenames fs rest); auto. }
  apply (G (length inputs)); lia.
Qed.

(** X11.  A dialogue about one group that comes to an answer has read at
    least one line and has removed at most one file: either the files are
    as they were, or the PDF beside one member of the group, which was
    there, is gone and nothing else. *)
Theorem delete_dialogue_outcome (pdf_dir : text) (filenames fs : list text)
    (inputs : list text) :
  match delete_dialogue pdf_dir filenames fs inputs with
  | Answered fs' rest out =>
      at_most_one_removed pdf_dir filenames fs fs'
      /\ exists used, inputs = used ++ rest /\ used <> []
  | InputEnded _ => True
  end.
Proof. apply delete_dialogue_effect. Qed.

Lemma at_most_one_removed_count pdf_dir filenames fs fs' :
  NoDup fs -> at_most_one_removed pdf_dir filenames fs fs' ->
  incl fs' fs /\ NoDup fs' /\ length fs <= S (length fs').
Proof.
  intros Hnd [->|(f & _ & Hx & ->)].
  - split; [apply incl_refl|]; split; [exact Hnd | lia].
  - split; [apply path_remove_incl|]; split.
    + apply NoDup_filter, Hnd.
    + apply path_exists_In in Hx.
      rewrite <- (@path_remove_length _ _ Hnd Hx); lia.
Qed.

Lemma handle_groups_effect pdf_dir hashes fs inputs :
  NoDup fs ->
  match handle_groups pdf_dir hashes fs inputs with
  | Answered fs' rest out =>
      incl fs' fs /\ NoDup fs'
      /\ length fs
         <= length fs'
            + length (filter (fun kv => 1 <? length (snd kv)) hashes)
      /\ exists used, inputs = used ++ rest
  | InputEnded _ => True
  end.
Proof.
  revert fs inputs; induction hashes as [|[h filenames] hashes IH];
    intros fs inputs Hnd; cbn [handle_groups filter snd].
  - split; [apply incl_refl|]; split; [exact Hnd|]; split; [lia|].
    exists []; reflexivity.
  - destruct (1 <? length filenames); [|apply IH, Hnd].
    pose proof (delete_dialogue_effect pdf_dir filenames fs inputs) as Hd.
    destruct (delete_dialogue pdf_dir filenames fs inputs)
      as [fs1 rest1 out1|out1]; [|exact I].
    destruct Hd as [H1 (used & -> & _)].
    destruct (@at_most_one_removed_count _ _ _ _ Hnd H1) as (I1 & N1 & L1).
    specialize (IH fs1 rest1 N1).
    destruct (handle_groups pdf_dir hashes fs1 rest1)
      as [fs2 rest2 out2|out2]; cbn [printed_before]; [|exact I].
    destruct IH as (I2 & N2 & L2 & (used2 & ->)).
    split; [intros q Hq; apply I1, I2, Hq|]; split; [exact N2|].
    split; [cbn [length]; lia|].
    exists (used ++ used2); rewrite app_assoc; reflexivity.
Qed.

Section DuplicatesDialogue.

Variable sha256_hexdigest : text -> text.

(** X12.  The whole pass over the groups only removes files, and at most
    one for every group reported: when it comes to its end, every file
    left was there before, and the number of files has gone down by no more
    than the number of groups reported. *)
Theorem duplicates_pass_only_removes (pdf_dir : text)
    (dir : list (text * text)) (fs : list text) (inputs : list text) :
  NoDup fs ->
  match handle_groups pdf_dir (build_hashes sha256_hexdigest dir) fs inputs
  with
  | Answered fs' rest out =>
      incl fs' fs /\ NoDup fs'
      /\ length fs <= length fs' + length (reported sha256_hexdigest dir)
      /\ exists used, inputs = used ++ rest
  | InputEnded _ => True
  end.
Proof. intros Hnd; apply handle_groups_effect, Hnd. Qed.

(** X13.  Without duplicates the operator is asked nothing: when the flag
    is not raised, the pass reads no input, prints nothing and leaves every
    file. *)
Theorem no_duplicates_no_dialogue (pdf_dir : text)
    (dir : list (text * text)) (fs : list text) (inputs : list text) :
  detect_and_handle_duplicates sha256_hexdigest dir = false ->
  handle_groups pdf_dir (build_hashes sha256_hexdigest dir) fs inputs
  = Answered fs inputs [].
Proof.
  unfold detect_and_handle_duplicates.
  induction (build_hashes sha256_hexdigest dir) as [|[h filenames] d IH];
    [reflexivity|].
  cbn [existsb snd handle_groups]; intros H.
  apply orb_false_iff in H; destruct H as [-> H]; apply IH, H.
Qed.

End DuplicatesDialogue.

Lemma duplicates_pass_only_removes_witness :
  handle_groups (T "in") 
    (build_hashes (fun content => content)
       [(T "a.txt", T "100,00 €"); (T "b.txt", T "100,00 €")])
    [T "in/a.pdf"; T "in/b.pdf"] [T "Y"; T "2"]
  = Answered [T "in/a.pdf"] []
      (menu [T "a.txt"; T "b.txt"] ++ [T "Deleted: in/b.pdf"])
  /\ incl [T "in/a.pdf"] [T "in/a.pdf"; T "in/b.pdf"].
Proof.
  split; [reflexivity|].
  assert (Hnd : NoDup [T "in/a.pdf"; T "in/b.pdf"]).
  { repeat constructor; [intros [H|[]]; discriminate H | intros []]. }
  exact (proj1 (@duplicates_pass_only_removes (fun content => content)
                  (T "in")
                  [(T "a.txt", T "100,00 €"); (T "b.txt", T "100,00 €")]
                  [T "in/a.pdf"; T "in/b.pdf"] [T "Y"; T "2"] Hnd)).
Defined.

Lemma no_duplicates_no_dialogue_witness :
  handle_groups (T "in")
    (build_hashes (fun content => content)
       [(T "a.txt", T "100,00 €"); (T "b.txt", T "90,00 €")])
    [T "in/a.pdf"; T "in/b.pdf"] [T "y"; T "1"]
  = Answered [T "in/a.pdf"; T "in/b.pdf"] [T "y"; T "1"] [].
Proof.
  exact (@no_duplicates_no_dialogue (fun content => content) (T "in")
           [(T "a.txt", T "100,00 €"); (T "b.txt", T "90,00 €")]
           [T "in/a.pdf"; T "in/b.pdf"] [T "y"; T "1"] eq_refl).
Defined.

(** ** Numerals that are dropped (lines 131-132) *)

Lemma replace_char_app old new a b :
  replace_char old new (a ++ b)
  = replace_char old new a ++ replace_char old new b.
Proof. unfold replace_char; apply flat_map_app. Qed.

Lemma clean_app a b : clean (a ++ b) = clean a ++ clean b.
Proof. unfold clean; rewrite !replace_char_app; reflexivity. Qed.

Lemma digit_not_sep c : digit c -> is_sep c = false.
Proof.
  unfold digit; intros Hd.
  destruct c as [[] [] [] [] [] [] [] []]; try discriminate Hd; reflexivity.
Qed.

Lemma clean_digits ds : Forall digit ds -> clean ds = ds.
Proof.
  induction 1 as [|d ds Hd _ IH]; [reflexivity|].
  change (d :: ds) with ([d] ++ ds); rewrite clean_app, IH; f_equal.
  apply digit_not_sep in Hd; unfold is_sep in Hd.
  apply orb_false_iff in Hd; destruct Hd as [H1 H2].
  unfold clean, replace_char; cbn [flat_map app]; rewrite H1; cbn [flat_map app].
  rewrite H2; reflexivity.
Qed.

Lemma commas_app a b : commas (a ++ b) = commas a + commas b.
Proof. unfold commas; rewrite filter_app, length_app; reflexivity. Qed.

Lemma commas_digits ds : Forall digit ds -> commas ds = 0.
Proof.
  unfold commas; induction 1 as [|d ds Hd _ IH]; [reflexivity|].
  cbn [filter]; apply digit_not_sep in Hd; unfold is_sep in Hd.
  apply orb_false_iff in Hd; destruct Hd as [_ H2].
  rewrite Ascii.eqb_sym, H2; exact IH.
Qed.

(** A group of a numeral as a part. *)
Lemma sep_group_piece n g :
  sep_group n g ->
  exists p, g = piece_text p /\ Forall digit (snd p) /\ length (snd p) = n.
Proof.
  intros (c & ds & -> & Hc & Hl & Hds).
  unfold sep, is_sep in Hc; apply orb_true_iff in Hc.
  destruct Hc as [Hc|Hc]; apply Ascii.eqb_eq in Hc; subst c.
  - exists (false, ds); auto.
  - exists (true, ds); auto.
Qed.

Lemma numeral_pieces n :
  numeral n ->
  exists ds ps,
    n = ds ++ flat_map piece_text ps
    /\ digit_block ds
    /\ Forall (fun p => digit_block (snd p)) ps.
Proof.
  intros (ds & gs & g & -> & Hl & Hds & Hgs & Hg).
  assert (G : exists ps, concat gs ++ g = flat_map piece_text ps
                         /\ Forall (fun p => digit_block (snd p)) ps).
  { induction Hgs as [|g' gs' Hg' _ (ps & E & Hps)].
    - destruct (sep_group_piece Hg) as (p & -> & Hp & Hlp).
      exists [p]; split; [simpl; rewrite app_nil_r; reflexivity|].
      repeat constructor; [exact Hp|].
      intros F; rewrite F in Hlp; discriminate.
    - destruct (sep_group_piece Hg') as (p & -> & Hp & Hlp).
      exists (p :: ps); cbn [concat flat_map]; rewrite <- app_assoc, E.
      split; [reflexivity|]; constructor; [|exact Hps].
      split; [exact Hp|]; intros F; rewrite F in Hlp; discriminate. }
  destruct G as (ps & E & Hps); exists ds, ps; rewrite E.
  split; [reflexivity|]; split; [|exact Hps].
  split; [exact Hds|]; intros ->; simpl in Hl; lia.
Qed.

Lemma clean_piece p :
  Forall digit (snd p) -> clean (piece_text p) = piece_clean p.
Proof.
  intros H; destruct p as [[|] ds]; unfold piece_text, piece_clean;
    cbn [fst snd] in *.
  - change (","%char :: ds) with ([","%char] ++ ds).
    rewrite clean_app, (clean_digits H); reflexivity.
  - change ("."%char :: ds) with (["."%char] ++ ds).
    rewrite clean_app, (clean_digits H); reflexivity.
Qed.

(** The cleaned numeral as blocks of digits, one more than it had commas. *)
Lemma clean_pieces ps :
  Forall (fun p => digit_block (snd p)) ps ->
  forall ds, digit_block ds ->
  exists b bs,
    clean (ds ++ flat_map piece_text ps) = dotted b bs
    /\ Forall digit_block (b :: bs)
    /\ length bs = commas (ds ++ flat_map piece_text ps).
Proof.
  induction 1 as [|[comma ds'] ps [Hd' Hn'] _ IH]; intros ds [Hd Hn].
  - exists ds, []; cbn [flat_map]; rewrite app_nil_r, (clean_digits Hd).
    split; [reflexivity|]; split; [repeat constructor; assumption|].
    rewrite (commas_digits Hd); reflexivity.
  - cbn [snd] in Hd', Hn'; cbn [flat_map]; destruct comma.
    + destruct (IH ds' (conj Hd' Hn')) as (b & bs & E & Hb & Hl).
      exists ds, (b :: bs).
      change (piece_text (true, ds')) with ([","%char] ++ ds').
      rewrite <- !app_assoc, !clean_app, (clean_digits Hd), <- clean_app, E.
      split; [reflexivity|]; split; [constructor; [split|]; assumption|].
      rewrite !commas_app, (commas_digits Hd), <- commas_app.
      cbn [length]; rewrite Hl; reflexivity.
    + destruct (IH (ds ++ ds')) as (b & bs & E & Hb & Hl).
      { split; [apply Forall_app; auto|].
        intros F; apply app_eq_nil in F; tauto. }
      exists b, bs.
      change (piece_text (false, ds')) with (["."%char] ++ ds').
      assert (C : clean (ds ++ (["."%char] ++ ds') ++ flat_map piece_text ps)
                  = clean ((ds ++ ds') ++ flat_map piece_text ps)).
      { rewrite !clean_app, <- !app_assoc; reflexivity. }
      assert (K : commas (ds ++ (["."%char] ++ ds') ++ flat_map piece_text ps)
                  = commas ((ds ++ ds') ++ flat_map piece_text ps)).
      { rewrite !commas_app; unfold commas at 2; simpl; lia. }
      rewrite C, K, E; auto.
Qed.

Lemma digits_tail_block b r :
  Forall digit b -> stops r -> digits_tail (b ++ r) = (b, r).
Proof.
  intros Hb Hr; induction Hb as [|d b Hd _ IH].
  - destruct r as [|c r]; [reflexivity|]; simpl in Hr; subst c; reflexivity.
  - cbn [app digits_tail]; unfold digit in Hd; rewrite Hd, IH; reflexivity.
Qed.

Lemma digitpart_block b r :
  digit_block b -> stops r -> digitpart (b ++ r) = Some (b, r).
Proof.
  intros [Hb Hn] Hr; destruct Hb as [|d b Hd Hb]; [contradiction|].
  cbn [app digitpart]; unfold digit in Hd.
  rewrite Hd, (@digits_tail_block _ _ Hb Hr); reflexivity.
Qed.

Lemma dotted_split b bs :
  exists r, dotted b bs = b ++ r /\ stops r
            /\ match bs with
               | [] => r = []
               | b' :: bs' => r = "."%char :: dotted b' bs'
               end.
Proof.
  destruct bs as [|b' bs']; cbn [dotted].
  - exists []; rewrite app_nil_r; repeat split.
  - eexists; repeat split.
Qed.

Lemma unsigned_float_dotted b bs :
  Forall digit_block (b :: bs) ->
  unsigned_float (dotted b bs) = None <-> 2 <= length bs.
Proof.
  intros H; inversion H as [|? ? Hb Hbs]; subst; unfold unsigned_float.
  destruct (dotted_split b bs) as (r & -> & Hr & Er).
  unfold number_part; rewrite (@digitpart_block _ _ Hb Hr).
  destruct bs as [|b1 bs1]; [subst r; simpl; split; [discriminate|lia]|].
  subst r; inversion Hbs as [|? ? Hb1 Hbs1]; subst.
  destruct (dotted_split b1 bs1) as (r1 & -> & Hr1 & Er1).
  rewrite (@digitpart_block _ _ Hb1 Hr1).
  destruct bs1 as [|b2 bs2]; subst r1.
  - simpl; split; [discriminate|lia].
  - cbn [exponent_part length]; split; [intros _; lia | reflexivity].
Qed.

Lemma digit_block_chars b :
  digit_block b -> Forall (fun c => is_space c = false) b.
Proof.
  intros [Hb _]; eapply Forall_impl; [|exact Hb].
  intros c Hc; apply digit_not_space, Hc.
Qed.

Lemma dotted_chars b bs :
  Forall digit_block (b :: bs) ->
  Forall (fun c => is_space c = false) (dotted b bs).
Proof.
  revert b; induction bs as [|b' bs IH]; intros b H;
    inversion H as [|? ? Hb Hbs]; subst; cbn [dotted].
  - apply digit_block_chars, Hb.
  - apply Forall_app; split; [apply digit_block_chars, Hb|].
    constructor; [reflexivity | apply IH, Hbs].
Qed.

Lemma lstrip_id s : Forall (fun c => is_space c = false) s -> lstrip s = s.
Proof. destruct 1 as [|c s Hc _]; simpl; [|rewrite Hc]; reflexivity. Qed.

Lemma strip_id s : Forall (fun c => is_space c = false) s -> strip s = s.
Proof.
  intros H; unfold strip, rstrip; rewrite (lstrip_id H).
  rewrite lstrip_id by (apply Forall_rev, H); apply rev_involutive.
Qed.

Lemma float_of_string_unsigned d s :
  digit d -> strip (d :: s) = d :: s ->
  float_of_string (d :: s) = unsigned_float (d :: s).
Proof.
  unfold float_of_string, digit; intros Hd ->.
  destruct d as [[] [] [] [] [] [] [] []]; try discriminate Hd; reflexivity.
Qed.

Lemma float_of_string_dotted b bs :
  Forall digit_block (b :: bs) ->
  float_of_string (dotted b bs) = None <-> 2 <= length bs.
Proof.
  intros H; rewrite <- (unsigned_float_dotted H).
  assert (S : strip (dotted b bs) = dotted b bs)
    by (apply strip_id, dotted_chars, H).
  inversion H as [|? ? [Hb Hn] _]; subst.
  destruct (dotted_split b bs) as (r & E & _); rewrite E in *.
  destruct Hb as [|d b Hd Hb]; [contradiction|].
  cbn [app] in *; rewrite (@float_of_string_unsigned _ _ Hd S); reflexivity.
Qed.

Lemma numeral_dropped_iff n :
  numeral n -> float_of_string (clean n) = None <-> 2 <= commas n.
Proof.
  intros Hn; destruct (numeral_pieces Hn) as (ds & ps & -> & Hds & Hps).
  destruct (@clean_pieces _ Hps _ Hds) as (b & bs & -> & Hb & <-).
  apply float_of_string_dotted, Hb.
Qed.

(** X14.  Which tokens are dropped.  A numeral the pattern has matched is
    given up without a word (lines 131-132) exactly when it holds two or
    more commas: each comma becomes a decimal point, and [float] takes at
    most one.  With at most one comma the token always yields an amount. *)
Theorem token_dropped_iff_two_commas (n : text) :
  numeral n ->
  (float_of_string (clean n) = None <-> 2 <= commas n)
  /\ (scan_amounts (n ++ euro) = ([], []) <-> 2 <= commas n).
Proof.
  intros Hn; split; [apply numeral_dropped_iff, Hn|].
  rewrite <- (numeral_dropped_iff Hn), (scan_amounts_unsigned Hn).
  destruct (float_of_string (clean n)); split; try discriminate; reflexivity.
Qed.

Lemma token_dropped_iff_two_commas_witness :
  scan_amounts (T "1,234,56€") = ([], []).
Proof.
  assert (Hn : numeral (T "1,234,56")).
  { exists (T "1"), [T ",234"], (T ",56"); split; [reflexivity|].
    split; [simpl; lia|]; split; [repeat constructor|]; split.
    - repeat constructor; exists ","%char, (T "234"); repeat constructor.
    - exists ","%char, (T "56"); repeat constructor. }
  apply (proj2 (proj2 (@token_dropped_iff_two_commas (T "1,234,56") Hn))).
  vm_compute; lia.
Defined.

(** ** The passes of [main] *)

Lemma text_leb_total a b : text_leb a b = false -> text_leb b a = true.
Proof.
  revert b; induction a as [|x a IH]; intros [|y b]; simpl;
    try discriminate; try reflexivity.
  destruct (code x <? code y)%N eqn:E1; [discriminate|].
  destruct (code y <? code x)%N eqn:E2; [reflexivity|]; apply IH.
Qed.

Lemma insert_name_perm x l : Permutation (insert_name x l) (x :: l).
Proof.
  induction l as [|y ys IH]; simpl; auto.
  destruct (text_leb x y); auto.
  rewrite IH; apply perm_swap.
Qed.

Lemma sort_names_perm l : Permutation (sort_names l) l.
Proof.
  induction l as [|x xs IH]; simpl; auto.
  rewrite insert_name_perm; auto.
Qed.

Lemma insert_name_sorted x l :
  names_ascending l -> names_ascending (insert_name x l).
Proof.
  unfold names_ascending; induction 1 as [|y ys Hys IH Hy]; simpl.
  - repeat constructor.
  - destruct (text_leb x y) eqn:E.
    + repeat constructor; assumption.
    + constructor; [exact IH|].
      destruct Hy as [|z zs Hz]; simpl.
      * constructor; apply text_leb_total, E.
      * destruct (text_leb x z); constructor;
          [apply text_leb_total, E | exact Hz].
Qed.

Lemma sort_names_sorted l : names_ascending (sort_names l).
Proof.
  induction l as [|x xs IH]; simpl; [constructor|].
  apply insert_name_sorted, IH.
Qed.

(** The loop with the input left is the loop of the resolver. *)
Lemma run_rest_run h D st inputs :
  run h D st inputs = fst (run_rest h D st inputs)
  /\ exists used, inputs = used ++ snd (run_rest h D st inputs).
Proof.
  revert st; induction inputs as [|line rest IH]; intros st.
  - destruct st; split; try reflexivity; exists []; reflexivity.
  - destruct st as [| |t n].
    + rewrite run_AwaitChoice; cbn [run_rest].
      destruct (step h D AwaitChoice line) as [st' out].
      destruct (IH st') as [E (used & Hu)]; rewrite E.
      destruct (run_rest h D st' rest) as [[st'' out'] rest'].
      cbn [fst snd] in *; split; [reflexivity|].
      exists (line :: used); rewrite Hu at 1; reflexivity.
    + rewrite run_ManualEntry; cbn [run_rest].
      destruct (step h D ManualEntry line) as [st' out].
      destruct (IH st') as [E (used & Hu)]; rewrite E.
      destruct (run_rest h D st' rest) as [[st'' out'] rest'].
      cbn [fst snd] in *; split; [reflexivity|].
      exists (line :: used); rewrite Hu at 1; reflexivity.
    + split; [reflexivity | exists []; reflexivity].
Qed.

Lemma resolver_rest_resolver P D inputs :
  interactive_discount_resolver P D inputs = fst (resolver_rest P D inputs)
  /\ exists used, inputs = used ++ snd (resolver_rest P D inputs).
Proof.
  unfold interactive_discount_resolver, resolver_rest.
  destruct P as [|h others]; [split; [reflexivity | exists []; reflexivity]|].
  destruct (run_rest_run h D AwaitChoice inputs) as [E Hu]; rewrite E.
  destruct (run_rest h D AwaitChoice inputs) as [[[| |t n] out] rest];
    cbn [fst snd] in *; split; auto.
Qed.

Lemma second_pass_files results inputs rows out rest :
  second_pass results inputs = Some (rows, out, rest) ->
  map row_file rows = map fst results
  /\ exists used, inputs = used ++ rest.
Proof.
  revert inputs rows out rest;
    induction results as [|[f r] results IH]; intros inputs rows out rest.
  - simpl; intros E; injection E; intros; subst.
    split; [reflexivity | exists []; reflexivity].
  - cbn [second_pass].
    assert (auto : match second_pass results inputs with
                   | Some (rows0, out0, rest0) =>
                       Some ((f, total r, notes r) :: rows0, out0, rest0)
                   | None => None
                   end = Some (rows, out, rest) ->
                   map row_file rows = map fst ((f, r) :: results)
                   /\ exists used, inputs = used ++ rest).
    { destruct (second_pass results inputs) as [[[rows0 out0] rest0]|] eqn:E0;
        [|discriminate].
      intros E; injection E; intros; subst.
      destruct (IH _ _ _ _ E0) as [Hm Hu]; split; [|exact Hu].
      cbn [map]; rewrite Hm; reflexivity. }
    destruct (status r); try exact auto.
    destruct (resolver_rest_resolver (positive_amounts r) (discounts r) inputs)
      as [_ (used & Hu)].
    destruct (resolver_rest (positive_amounts r) (discounts r) inputs)
      as [[[t n| |] o] rest1]; try discriminate.
    cbn [snd] in Hu.
    destruct (second_pass results rest1) as [[[rows0 out0] rest0]|] eqn:E0;
      [|discriminate].
    intros E; injection E; intros; subst.
    destruct (IH _ _ _ _ E0) as [Hm (used' & ->)]; split.
    + cbn [map]; rewrite Hm; reflexivity.
    + exists (used ++ used'); rewrite app_assoc; reflexivity.
Qed.

Lemma first_pass_files dir :
  map fst (first_pass dir) = sort_names (map fst (filter is_txt dir)).
Proof.
  unfold first_pass; rewrite map_map; cbn [fst]; apply map_id.
Qed.

Section MainPasses.

Variable sha256_hexdigest : text -> text.

(** X15.  When [main] gets to its report, no two text files share a
    digest, and the report has one row for every text file, in ascending
    order of the file names; the item count is the number of text files. *)
Theorem report_rows_follow_names (dir : list (text * text))
    (inputs : list text) (rows : list row) (grand : Q) (count : nat) :
  main_passes sha256_hexdigest dir inputs = Report rows grand count ->
  ~ (exists l1 f1 c1 l2 f2 c2 l3,
        dir = l1 ++ (f1, c1) :: l2 ++ (f2, c2) :: l3
        /\ endswith (T ".txt") f1 = true
        /\ endswith (T ".txt") f2 = true
        /\ sha256_hexdigest c1 = sha256_hexdigest c2)
  /\ map row_file rows = sort_names (map fst (filter is_txt dir))
  /\ names_ascending (map row_file rows)
  /\ Permutation (map row_file rows) (map fst (filter is_txt dir))
  /\ count = length (filter is_txt dir).
Proof.
  unfold main_passes.
  destruct (detect_and_handle_duplicates sha256_hexdigest dir) eqn:Ed;
    [discriminate|].
  destruct (second_pass (first_pass dir) inputs) as [[[rows0 out] rest]|] eqn:E;
    [|discriminate].
  intros R; injection R; intros; subst.
  destruct (second_pass_files _ _ E) as [Hm _].
  rewrite first_pass_files in Hm.
  split; [|split; [exact Hm|]; rewrite Hm; split; [|split]].
  - intros H; apply flag_iff_shared_digest in H; congruence.
  - apply sort_names_sorted.
  - apply sort_names_perm.
  - rewrite <- (length_map row_file), Hm.
    rewrite (Permutation_length (sort_names_perm _)); apply length_map.
Qed.

End MainPasses.

Lemma report_rows_follow_names_witness :
  main_passes (fun content => content)
    [(T "b.txt", T "100,00 €"); (T "a.txt", T "5,00 €")] []
  = Report [(T "a.txt", Some 5.00%Q, []); (T "b.txt", Some 100.00%Q, [])]
      (0 + 5.00 + 100.00)%Q 2
  /\ map row_file
       [(T "a.txt", Some 5.00%Q, []); (T "b.txt", Some 100.00%Q, [])]
     = sort_names
         (map fst
            (filter is_txt
               [(T "b.txt", T "100,00 €"); (T "a.txt", T "5,00 €")])).
Proof.
  split; [reflexivity|].
  exact (proj1 (proj2
    (@report_rows_follow_names (fun content => content)
       [(T "b.txt", T "100,00 €"); (T "a.txt", T "5,00 €")] []
       [(T "a.txt", Some 5.00%Q, []); (T "b.txt", Some 100.00%Q, [])]
       (0 + 5.00 + 100.00)%Q 2 eq_refl))).
Defined.




Section MainWithoutOperator.

Variable sha256_hexdigest : text -> text.


End MainWithoutOperator.


(** ** Complaints and progress of the resolver *)

Lemma step_complains_or_moves h D st line :
  (fst (step h D st line) = st /\ length (snd (step h D st line)) = 1
   /\ rank st <> 0)
  \/ (rank (fst (step h D st line)) < rank st
      /\ snd (step h D st line) = [])
  \/ rank st = 0.
Proof.
  assert (complains : forall st msg,
             rank st <> 0 ->
             (fst (st, [msg : text]) = st
              /\ length (snd (st, [msg])) = 1 /\ rank st <> 0)
             \/ (rank (fst (st, [msg])) < rank st /\ snd (st, [msg]) = [])
             \/ rank st = 0)
    by (intros; left; auto).
  assert (moves : forall st st',
             rank st' < rank st ->
             (fst (st', @nil text) = st
              /\ length (snd (st', @nil text)) = 1 /\ rank st <> 0)
             \/ (rank (fst (st', @nil text)) < rank st
                 /\ snd (st', @nil text) = [])
             \/ rank st = 0)
    by (intros; right; left; auto).
  destruct st as [| |t n]; [| |right; right; reflexivity]; unfold step.
  - destruct (text_eqb _ (T "E")); [apply moves; simpl; lia|].
    destruct (text_eqb _ (T "S")); [apply moves; simpl; lia|].
    destruct (parse_choices _) as [cs|]; [|apply complains; discriminate].
    destruct (select D cs []) as [[|x sel]|c];
      [apply complains; discriminate | apply moves; simpl; lia
      | apply complains; discriminate].
  - destruct (float_of_string line);
      [apply moves; simpl; lia | apply complains; discriminate].
Qed.

Lemma run_rest_counts h D inputs :
  forall st,
    exists used,
      inputs = used ++ snd (run_rest h D st inputs)
      /\ length (snd (fst (run_rest h D st inputs))) <= length used
      /\ length used + rank (fst (fst (run_rest h D st inputs)))
         <= length (snd (fst (run_rest h D st inputs))) + rank st
      /\ (rank (fst (fst (run_rest h D st inputs))) < rank st ->
          length (snd (fst (run_rest h D st inputs))) < length used).
Proof.
  induction inputs as [|line rest IH]; intros st.
  - exists []; destruct st; simpl; repeat split; lia.
  - destruct (step_complains_or_moves h D st line) as [(E & L & R)|[(R & E)|R]].
    + assert (U : run_rest h D st (line :: rest)
                  = (let (st', out) := step h D st line in
                     let '(st'', out', rest') := run_rest h D st' rest in
                     (st'', out ++ out', rest')))
        by (destruct st; [reflexivity | reflexivity | simpl in R; lia]).
      rewrite U; destruct (step h D st line) as [st' out]; cbn [fst snd] in *.
      subst st'; destruct (IH st) as (used & Hu & A & B & C).
      destruct (run_rest h D st rest) as [[st'' out'] rest'].
      cbn [fst snd] in *; exists (line :: used); rewrite length_app.
      cbn [length app]; rewrite <- Hu; repeat split; lia.
    + assert (U : run_rest h D st (line :: rest)
                  = (let (st', out) := step h D st line in
                     let '(st'', out', rest') := run_rest h D st' rest in
                     (st'', out ++ out', rest')))
        by (destruct st; [reflexivity | reflexivity | simpl in R; lia]).
      rewrite U; destruct (step h D st line) as [st' out]; cbn [fst snd] in *.
      subst out; destruct (IH st') as (used & Hu & A & B & C).
      destruct (run_rest h D st' rest) as [[st'' out'] rest'].
      cbn [fst snd] in *; exists (line :: used).
      cbn [length app]; rewrite <- Hu; repeat split; lia.
    + destruct st as [| |t n]; try discriminate R.
      exists []; simpl; repeat split; lia.
Qed.

(** X17.  The resolver never goes round in silence: every line it reads
    either moves the dialogue on or is answered by exactly one printed
    line.  Of the lines read, all but at most two (the choice, and the
    amount after E) were answered by a printed line, and a call that
    returns has read at least one line more than it printed. *)
Theorem one_message_per_rejected_line (P D : list Q) (inputs : list text) :
  exists used,
    inputs = used ++ snd (resolver_rest P D inputs)
    /\ length (snd (fst (resolver_rest P D inputs))) <= length used
    /\ length used <= length (snd (fst (resolver_rest P D inputs))) + 2
    /\ match fst (fst (resolver_rest P D inputs)) with
       | Returned _ _ =>
           length (snd (fst (resolver_rest P D inputs))) < length used
       | _ => True
       end.
Proof.
  unfold resolver_rest; destruct P as [|h others].
  - exists []; simpl; repeat split; lia.
  - destruct (run_rest_counts h D inputs AwaitChoice)
      as (used & Hu & A & B & C).
    destruct (run_rest h D AwaitChoice inputs) as [[[| |t n] out] rest];
      cbn [fst snd rank] in *; exists used; repeat split; auto; lia.
Qed.

(** ** Documents handed to the resolver *)

Lemma classify_needs_lists P D :
  status (classify P D) = STATUS_NEEDS_INTERACTION ->
  exists h others d ds,
    positive_amounts (classify P D) = h :: others
    /\ discounts (classify P D) = d :: ds
    /\ py_max P = Some h /\ py_max D = Some d.
Proof.
  destruct P as [|p P']; [discriminate|].
  destruct D as [|d D']; [discriminate|].
  rewrite classify_cons, !py_max_sort_desc; unfold after_sort.
  destruct (sort_desc_cons p P') as (h & others & EP).
  destruct (sort_desc_cons d D') as (d0 & ds & ED).
  rewrite EP, ED; destruct (existsb _ _); [discriminate|]; intros _.
  exists h, others, d0, ds; repeat split.
Qed.

(** X18.  A document marked NEEDS_INTERACTION always comes to the resolver
    with at least one positive amount and one discount, the first of each
    being the greatest scanned: index 0 at line 174 cannot fail, the amount
    shown as the highest is the maximum, and there is a discount to
    choose. *)
Theorem needs_interaction_is_resolvable (content : text)
    (inputs : list text) :
  status (analyze_invoice_text content) = STATUS_NEEDS_INTERACTION ->
  exists h others d ds,
    positive_amounts (analyze_invoice_text content) = h :: others
    /\ discounts (analyze_invoice_text content) = d :: ds
    /\ py_max (fst (scan_amounts content)) = Some h
    /\ py_max (snd (scan_amounts content)) = Some d
    /\ fst (interactive_discount_resolver
              (positive_amounts (analyze_invoice_text content))
              (discounts (analyze_invoice_text content)) inputs)
       <> IndexError.
Proof.
  unfold analyze_invoice_text.
  destruct (scan_amounts content) as [P D]; cbn [fst snd]; intros H.
  destruct (classify_needs_lists _ _ H) as (h & others & d & ds & EP & ED & M1 & M2).
  exists h, others, d, ds; rewrite EP, ED; repeat split; auto.
  unfold interactive_discount_resolver.
  destruct (run h (d :: ds) AwaitChoice inputs) as [[| |t n] out];
    discriminate.
Qed.

Lemma needs_interaction_is_resolvable_witness :
  exists h others d ds,
    positive_amounts
      (analyze_invoice_text (T "90,50 € 100,00 € -3,00 € -10,00 €"))
    = h :: others
    /\ discounts
         (analyze_invoice_text (T "90,50 € 100,00 € -3,00 € -10,00 €"))
       = d :: ds
    /\ py_max (fst (scan_amounts (T "90,50 € 100,00 € -3,00 € -10,00 €")))
       = Some h
    /\ py_max (snd (scan_amounts (T "90,50 € 100,00 € -3,00 € -10,00 €")))
       = Some d
    /\ fst (interactive_discount_resolver
              (positive_amounts
                 (analyze_invoice_text
                    (T "90,50 € 100,00 € -3,00 € -10,00 €")))
              (discounts
                 (analyze_invoice_text
                    (T "90,50 € 100,00 € -3,00 € -10,00 €"))) [])
       <> IndexError.
Proof.
  exact (@needs_interaction_is_resolvable
           (T "90,50 € 100,00 € -3,00 € -10,00 €") [] eq_refl).
Defined.

(** ** The operator's lines across documents *)

(** X19.  The second pass hands the operator's lines on from document to
    document: the rows of two runs of documents one after the other are the
    rows of the first on the input followed by the rows of the second on
    the input the first has left, and a failure in either is a failure of
    the whole. *)
Theorem second_pass_in_sequence (first second : list (text * InvoiceData))
    (inputs : list text) :
  second_pass (first ++ second) inputs
  = match second_pass first inputs with
    | Some (rows, out, rest) =>
        match second_pass second rest with
        | Some (rows', out', rest') =>
            Some (rows ++ rows', out ++ out', rest')
        | None => None
        end
    | None => None
    end.
Proof.
  revert inputs; induction first as [|[f r] first IH]; intros inputs.
  - cbn [app second_pass].
    destruct (second_pass second inputs) as [[[rows out] rest]|]; reflexivity.
  - cbn [app second_pass].
    assert (auto : match second_pass (first ++ second) inputs with
                   | Some (rows, out, rest) =>
                       Some ((f, total r, notes r) :: rows, out, rest)
                   | None => None
                   end
                   = match
                       match second_pass first inputs with
                       | Some (rows, out, rest) =>
                           Some ((f, total r, notes r) :: rows, out, rest)
                       | None => None
                       end
                     with
                     | Some (rows, out, rest) =>
                         match second_pass second rest with
                         | Some (rows', out', rest') =>
                             Some (rows ++ rows', out ++ out', rest')
                         | None => None
                         end
                     | None => None
                     end).
    { rewrite IH.
      destruct (second_pass first inputs) as [[[rows out] rest]|];
        [|reflexivity].
      destruct (second_pass second rest) as [[[rows' out'] rest']|];
        reflexivity. }
    destruct (status r); try exact auto.
    destruct (resolver_rest (positive_amounts r) (discounts r) inputs)
      as [[[t n| |] o] rest1]; try reflexivity.
    rewrite IH.
    destruct (second_pass first rest1) as [[[rows out] rest]|];
      [|reflexivity].
    destruct (second_pass second rest) as [[[rows' out'] rest']|];
      [|reflexivity].
    rewrite app_assoc; reflexivity.
Qed.
